(** * Mediphant: FAQ retrieval with fallback, rate limiter and query history

    A shallow embedding of the TypeScript sources of the web application:

    - the FAQ route (class [FAQSearchService], handlers [GET] and [POST]),
    - [lib/rateLimit] (class [RateLimiter]),
    - [lib/queryHistory] (class [QueryHistoryStore]),
    - [lib/interactions] ([findInteraction], [checkInteraction]),
    - the interactions route (handler [POST]),

    followed by the properties of the specification that concern them.

    Conventions of the embedding.
    - A JavaScript string is a [string] whose characters are code units
      below 256 (the Latin-1 range); the corpus, the fixed messages and the
      rule table are ASCII.
    - A JavaScript number that holds a count or a millisecond time stamp is
      a [Z].  A relevance score, the quotient of two array lengths, is a
      [Q]: the floating-point quotients of such lengths compare as the
      rationals do, and the divisor, the length of a [split] result, is
      never zero.
    - Mutable objects become explicit state: a method returns its result
      together with the next state of the object.  The clock readings
      [Date.now()] are arguments.
    - What the external services answer (OpenAI, Pinecone) is read from a
      [World] record; the calls that reach them are recorded in a trace. *)

From Stdlib Require Import ZArith QArith Ascii String List Sorted Bool Lia.
From stdpp Require Import gmap strings list pretty.
Import ListNotations.

Local Open Scope string_scope.
Local Open Scope Z_scope.

(** ** JavaScript string primitives *)

Module JsString.

(** Code unit of a character. *)
Definition code (c : ascii) : N := N_of_ascii c.

(** [String.prototype.toLowerCase] on one code unit of the Latin-1 range:
    [A-Z] and the accented capitals U+00C0..U+00DE (without the
    multiplication sign U+00D7) move up by 32. *)
Definition lower_char (c : ascii) : ascii :=
  let n := code c in
  if ((65 <=? n) && (n <=? 90))%N
     || ((192 <=? n) && (n <=? 222) && negb (n =? 215))%N
  then ascii_of_N (n + 32)
  else c.

Fixpoint toLowerCase (s : string) : string :=
  match s with
  | EmptyString => EmptyString
  | String c r => String (lower_char c) (toLowerCase r)
  end.

(** The class [\s] of a regular expression (and the white space that
    [trim] removes), restricted to code units below 256: TAB, LF, VT, FF,
    CR, SPACE and NO-BREAK SPACE. *)
Definition is_space (c : ascii) : bool :=
  let n := code c in
  (((9 <=? n) && (n <=? 13)) || (n =? 32) || (n =? 160))%N.

(** [s.split(/\s+/)]: the fields between maximal runs of white space.
    The result is never empty: the empty string gives one empty field, and
    leading or trailing white space gives an empty first or last field.
    [after_space] tells that the previous character belonged to a
    separator, so that a run of white space separates only once. *)
Fixpoint split_from (after_space : bool) (s : string) : list string :=
  match s with
  | EmptyString => [EmptyString]
  | String c r =>
      if is_space c then
        if after_space then split_from true r
        else EmptyString :: split_from true r
      else
        match split_from false r with
        | f :: fs => String c f :: fs
        | [] => [String c EmptyString]
        end
  end.

Definition split_ws (s : string) : list string := split_from false s.

(** [t] is a prefix of [s] ([s.startsWith(t)]). *)
Fixpoint startsWith (s t : string) {struct t} : bool :=
  match t, s with
  | EmptyString, _ => true
  | String _ _, EmptyString => false
  | String a t', String b s' => if Ascii.eqb a b then startsWith s' t' else false
  end.

(** [s.includes(t)]: [t] occurs in [s] at some position. *)
Fixpoint includes (s t : string) : bool :=
  startsWith s t ||
  match s with
  | EmptyString => false
  | String _ r => includes r t
  end.

(** [s.trimStart()], [s.trimEnd()] and [s.trim()]. *)
Fixpoint trimStart (s : string) : string :=
  match s with
  | EmptyString => EmptyString
  | String c r => if is_space c then trimStart r else s
  end.

Fixpoint trimEnd (s : string) : string :=
  match s with
  | EmptyString => EmptyString
  | String c r =>
      match trimEnd r with
      | EmptyString => if is_space c then EmptyString else String c EmptyString
      | r' => String c r'
      end
  end.

Definition trim (s : string) : string := trimEnd (trimStart s).

(** [s.length] *)
Definition jslength (s : string) : Z := Z.of_nat (String.length s).

(** [parts.join(sep)] *)
Fixpoint join (sep : string) (parts : list string) : string :=
  match parts with
  | [] => EmptyString
  | [p] => p
  | p :: rest => p +:+ sep +:+ join sep rest
  end.

(** Truthiness of a string that may be absent ([undefined] or [null]). *)
Definition truthy (o : option string) : bool :=
  match o with
  | Some (String _ _) => true
  | _ => false
  end.

(** [a || b] on strings that may be absent. *)
Definition or_else (a : option string) (b : option string) : option string :=
  if truthy a then a else b.

End JsString.

Import JsString.


(** ** The rate limiter ([web/src/lib/rateLimit.ts]) *)

Module RateLimit.

Record RateLimitEntry : Type := mkEntry { count : Z; resetTime : Z }.

(** The object: the [requests] map and the two read-only settings. *)
Record RateLimiter : Type := mkLimiter {
  requests : gmap string RateLimitEntry;
  windowMs : Z;
  maxRequests : Z
}.

(** [new RateLimiter(windowMs, maxRequests)]; the defaults are 60000 and 100. *)
Definition create (windowMs maxRequests : Z) : RateLimiter :=
  mkLimiter ∅ windowMs maxRequests.

Definition with_requests (rl : RateLimiter) (m : gmap string RateLimitEntry)
  : RateLimiter :=
  mkLimiter m (windowMs rl) (maxRequests rl).

(** [!entry || now > entry.resetTime] *)
Definition absent_or_expired (now : Z) (entry : option RateLimitEntry) : bool :=
  match entry with
  | None => true
  | Some e => resetTime e <? now
  end.

(** [isAllowed(identifier)], with [now] the value of [Date.now()].
    [entry.count++] updates the entry stored in the map. *)
Definition isAllowed (now : Z) (identifier : string) (rl : RateLimiter)
  : bool * RateLimiter :=
  let entry := requests rl !! identifier in
  if absent_or_expired now entry then
    (true, with_requests rl
             (<[identifier := mkEntry 1 (now + windowMs rl)]> (requests rl)))
  else
    match entry with
    | None => (true, rl)
    | Some e =>
        if maxRequests rl <=? count e then (false, rl)
        else (true, with_requests rl
                      (<[identifier := mkEntry (count e + 1) (resetTime e)]>
                         (requests rl)))
    end.

(** [getRemaining(identifier)] *)
Definition getRemaining (now : Z) (identifier : string) (rl : RateLimiter) : Z :=
  let entry := requests rl !! identifier in
  if absent_or_expired now entry then maxRequests rl
  else
    match entry with
    | None => maxRequests rl
    | Some e => Z.max 0 (maxRequests rl - count e)
    end.

(** [cleanup()], run by the interval timer: expired entries are deleted. *)
Definition cleanup (now : Z) (rl : RateLimiter) : RateLimiter :=
  with_requests rl
    (filter (λ kv : string * RateLimitEntry, ¬ (resetTime kv.2 < now))
            (requests rl)).

(** Successive calls of [isAllowed] for one identifier at the given times;
    the answers are listed in call order. *)
Fixpoint calls (times : list Z) (identifier : string) (rl : RateLimiter)
  : list bool * RateLimiter :=
  match times with
  | [] => ([], rl)
  | t :: ts =>
      let '(b, rl1) := isAllowed t identifier rl in
      let '(bs, rl2) := calls ts identifier rl1 in
      (b :: bs, rl2)
  end.

(** Two limiters with the same settings and the same entry for [k]. *)
Definition agree_on (k : string) (rl1 rl2 : RateLimiter) : Prop :=
  requests rl1 !! k = requests rl2 !! k
  /\ windowMs rl1 = windowMs rl2 /\ maxRequests rl1 = maxRequests rl2.

(** The exported instance, built from [RATE_LIMIT_CONFIG]. *)
Definition WINDOW_MS : Z := 60000.
Definition MAX_REQUESTS : Z := 100.
Definition rateLimiter : RateLimiter := create WINDOW_MS MAX_REQUESTS.

End RateLimit.

(** ** The query history ([web/src/lib/queryHistory.ts]) *)

Module QueryHistory.

Record QueryHistoryItem : Type := mkItem {
  id : string;
  medA : string;
  medB : string;
  isPotentiallyRisky : bool;
  reason : string;
  timestamp : Z
}.

(** The store is its [history] array; [maxItems] is the constant 10. *)
Definition QueryHistoryStore : Type := list QueryHistoryItem.

Definition maxItems : nat := 10.

Definition empty : QueryHistoryStore := [].

(** [addQuery(medA, medB, isPotentiallyRisky, reason)]: [idNow] is the value
    of [Date.now()] and [tsNow] the time of [new Date()].  [unshift] puts
    the item in front, [slice(0, maxItems)] keeps the first ten. *)
Definition addQuery (idNow tsNow : Z) (a b : string) (risky : bool)
           (why : string) (history : QueryHistoryStore) : QueryHistoryStore :=
  let item := mkItem (pretty idNow) a b risky why tsNow in
  let history1 := item :: history in
  if (maxItems <? length history1)%nat then firstn maxItems history1
  else history1.

(** [getRecentQueries()]: a copy of the array. *)
Definition getRecentQueries (history : QueryHistoryStore) : list QueryHistoryItem :=
  history.

(** [clearHistory()] *)
Definition clearHistory (history : QueryHistoryStore) : QueryHistoryStore := [].

(** The arguments of one [addQuery] call, with its two clock readings. *)
Record AddCall : Type := mkAdd {
  add_idNow : Z; add_tsNow : Z;
  add_medA : string; add_medB : string; add_risky : bool; add_reason : string
}.

Definition item_of (c : AddCall) : QueryHistoryItem :=
  mkItem (pretty (add_idNow c)) (add_medA c) (add_medB c) (add_risky c)
         (add_reason c) (add_tsNow c).

Definition add (c : AddCall) (history : QueryHistoryStore) : QueryHistoryStore :=
  addQuery (add_idNow c) (add_tsNow c) (add_medA c) (add_medB c) (add_risky c)
           (add_reason c) history.

(** The calls of the list one after the other, first element first. *)
Definition addAll (cs : list AddCall) (history : QueryHistoryStore)
  : QueryHistoryStore :=
  fold_left (fun h c => add c h) cs history.

End QueryHistory.

(** ** The interaction rules ([web/src/lib/interactions.ts]) *)

Module Interactions.

Record InteractionRule : Type := mkRule {
  drugs : string * string;
  risky : bool;
  rule_reason : string;
  rule_advice : string
}.

Definition INTERACTION_RULES : list InteractionRule :=
  [ mkRule ("warfarin", "ibuprofen") true "increased bleeding risk"
      "avoid combo; consult clinician; prefer acetaminophen for pain relief";
    mkRule ("metformin", "contrast dye") true
      "lactic acidosis risk around imaging contrast"
      "hold metformin per imaging protocol";
    mkRule ("lisinopril", "spironolactone") true "hyperkalemia risk"
      "monitor potassium, consult clinician" ].

(** [findInteraction]: the first rule whose pair is the normalized pair, in
    either order. *)
Definition findInteraction (a b : string) : option InteractionRule :=
  let normalizedA := trim (toLowerCase a) in
  let normalizedB := trim (toLowerCase b) in
  List.find
    (fun rule =>
       let drug1 := toLowerCase (fst (drugs rule)) in
       let drug2 := toLowerCase (snd (drugs rule)) in
       (String.eqb drug1 normalizedA && String.eqb drug2 normalizedB)
       || (String.eqb drug1 normalizedB && String.eqb drug2 normalizedA))
    INTERACTION_RULES.

Record InteractionResult : Type := mkResult {
  pair : string * string;
  isPotentiallyRisky : bool;
  reason : string;
  advice : string
}.

Definition checkInteraction (a b : string) : InteractionResult :=
  match findInteraction a b with
  | Some interaction =>
      mkResult (a, b) (risky interaction) (rule_reason interaction)
               (rule_advice interaction)
  | None =>
      mkResult (a, b) false "No known interaction found"
        "No specific interaction warnings found in our database. However, always consult with a healthcare professional before combining medications."
  end.

End Interactions.

(** ** The FAQ search service ([web/src/app/api/faq/route.ts]) *)

Module Faq.

Record SearchMatch : Type := mkMatch { text : string; score : Q }.

Record FAQResponse : Type := mkFAQ { answer : string; matches : list SearchMatch }.

Definition FALLBACK_CORPUS : list string :=
  [ "Medication adherence improves outcomes in diabetes; missed doses are a leading cause of poor control.";
    "Keep an up-to-date medication list; reconcile after every clinic or hospital visit.";
    "Use a pill organizer or phone reminders to reduce unintentional nonadherence.";
    "High-risk interactions include anticoagulants with NSAIDs, ACE inhibitors with potassium-sparing diuretics, and metformin around contrast imaging.";
    "When in doubt, consult a pharmacist or clinician; online lists can be incomplete." ].

(** [a < b] on scores. *)
Definition Qlt_b (a b : Q) : bool := negb (Qle_bool b a).

(** [Array.prototype.sort(compareFn)].  The sort of the language is stable:
    an element moves behind another one only when the compare function
    orders it strictly after it.  Insertion from the right end realises
    this order. *)
Section Sort.
Context {A : Type} (compareFn : A -> A -> Q).

Fixpoint insert_stable (x : A) (l : list A) : list A :=
  match l with
  | [] => [x]
  | y :: r =>
      if Qlt_b 0 (compareFn x y) then y :: insert_stable x r
      else x :: y :: r
  end.

Definition sort (l : list A) : list A := fold_right insert_stable [] l.
End Sort.

(** [textTerms.some(textTerm => textTerm.includes(term) || term.includes(textTerm))] *)
Definition term_hits (textTerms : list string) (term : string) : bool :=
  existsb (fun textTerm => includes textTerm term || includes term textTerm)
          textTerms.

(** The body of the [map] callback of [searchWithFallback]: the score of
    one text for the query terms, [matches.length / queryTerms.length]. *)
Definition score_of (queryTerms : list string) (txt : string) : Q :=
  let textTerms := split_ws (toLowerCase txt) in
  let hits := List.filter (term_hits textTerms) queryTerms in
  (inject_Z (Z.of_nat (length hits)) / inject_Z (Z.of_nat (length queryTerms)))%Q.

(** The array [scores] of [searchWithFallback], over any corpus. *)
Definition scores_on (corpus : list string) (query : string) : list SearchMatch :=
  let queryTerms := split_ws (toLowerCase query) in
  List.map (fun txt => mkMatch txt (score_of queryTerms txt)) corpus.

(** [(a, b) => b.score - a.score] *)
Definition by_score_desc (a b : SearchMatch) : Q := (score b - score a)%Q.

(** [filter(item => item.score > 0).sort(...).slice(0, 3)] *)
Definition top3 (scores : list SearchMatch) : list SearchMatch :=
  firstn 3 (sort by_score_desc
              (List.filter (fun item => Qlt_b 0 (score item)) scores)).

Definition searchWithFallback_on (corpus : list string) (query : string)
  : list SearchMatch :=
  top3 (scores_on corpus query).

Definition scores (query : string) : list SearchMatch :=
  scores_on FALLBACK_CORPUS query.

(** The entries of an array, each with its position (its ordinal). *)
Definition with_ordinals {A : Type} (l : list A) : list (nat * A) :=
  combine (seq 0 (length l)) l.

(** [top3] on entries that carry their ordinal; the ordinal is not looked
    at, it only travels with the entry. *)
Definition by_score_desc_tagged (a b : nat * SearchMatch) : Q :=
  by_score_desc (snd a) (snd b).

Definition top3_with_ordinals (entries : list (nat * SearchMatch))
  : list (nat * SearchMatch) :=
  firstn 3 (sort by_score_desc_tagged
              (List.filter (fun p => Qlt_b 0 (score (snd p))) entries)).

(** The order of a result: the higher score first and, between equal
    scores, the lower ordinal first. *)
Definition ranked_before (a b : nat * SearchMatch) : Prop :=
  (score (snd b) < score (snd a))%Q
  \/ ((score (snd a) == score (snd b))%Q /\ (fst a < fst b)%nat).

Definition searchWithFallback (query : string) : list SearchMatch :=
  searchWithFallback_on FALLBACK_CORPUS query.

End Faq.

(** ** Calls to the external services

    A computation that may call OpenAI or Pinecone yields the list of the
    calls it made and either a value or nothing, when an exception escaped
    ([None]). *)

Module Io.

Inductive Call : Type :=
| CallEmbeddings (input : string)      (* [openai.embeddings.create] *)
| CallIndexQuery (indexName : string)  (* [pinecone.index(name).query] *)
| CallChat (prompt : string).          (* [openai.chat.completions.create] *)

Definition io (A : Type) : Type := list Call * option A.

Definition ret {A} (a : A) : io A := ([], Some a).

Definition throw {A} : io A := ([], None).

Definition bind {A B} (m : io A) (k : A -> io B) : io B :=
  match m with
  | (c1, Some a) => let '(c2, r) := k a in ((c1 ++ c2)%list, r)
  | (c1, None) => (c1, None)
  end.

(** [try { m } catch { handler }] *)
Definition try_catch {A} (m : io A) (handler : io A) : io A :=
  match m with
  | (c1, Some a) => (c1, Some a)
  | (c1, None) => let '(c2, r) := handler in ((c1 ++ c2)%list, r)
  end.

(** One call to a service whose answer is [r]; [None] is a rejection. *)
Definition call {A} (c : Call) (r : option A) : io A := ([c], r).

Definition is_vector_call (c : Call) : bool :=
  match c with
  | CallEmbeddings _ | CallIndexQuery _ => true
  | CallChat _ => false
  end.

(** The vector path was attempted: the query was sent for embedding or the
    index was queried. *)
Definition attempts_vector (calls : list Call) : bool :=
  existsb is_vector_call calls.

End Io.

Declare Scope io_scope.
Delimit Scope io_scope with io.
Notation "x <- m ;; k" := (Io.bind m (fun x => k))
  (at level 100, m at next level, right associativity) : io_scope.

Module Service.
Import Io Faq.

(** The environment variables read by the service. *)
Record Env : Type := mkEnv {
  PINECONE_API_KEY : option string;
  OPENAI_API_KEY : option string;
  PINECONE_INDEX : option string
}.

(** One neighbour returned by the index: [metadata?.text] and [score]. *)
Record PineconeMatch : Type := mkPinecone {
  metadata_text : option string;
  match_score : option Q
}.

Definition Embedding : Type := list Q.

(** What the external services do while one request is handled. *)
Record World : Type := mkWorld {
  new_Pinecone_throws : bool;
  new_OpenAI_throws : bool;
  (** [embeddingResponse.data], or a rejection *)
  embeddings_create : string -> option (list Embedding);
  (** [searchResponse.matches], possibly undefined, or a rejection *)
  index_query : string -> Embedding -> option (option (list PineconeMatch));
  (** [response.choices[0]?.message?.content], or a rejection *)
  chat_completions_create : string -> option (option string)
}.

(** The fields of a [FAQSearchService]: whether each client object exists,
    and the flag. *)
Record FAQSearchService : Type := mkService {
  pinecone : bool;
  openai : bool;
  useFallback : bool
}.

Definition set_useFallback (s : FAQSearchService) : FAQSearchService :=
  mkService (pinecone s) (openai s) true.

(** The constructor. *)
Definition new_FAQSearchService (env : Env) (w : World) : FAQSearchService :=
  if truthy (PINECONE_API_KEY env) && truthy (OPENAI_API_KEY env) then
    if new_Pinecone_throws w then mkService false false true
    else if new_OpenAI_throws w then mkService true false true
    else mkService true true false
  else mkService false false true.

Definition of_pinecone (m : PineconeMatch) : SearchMatch :=
  mkMatch (default EmptyString (or_else (metadata_text m) (Some EmptyString)))
          (match match_score m with
           | Some s => if Qeq_bool s 0 then 0%Q else s
           | None => 0%Q
           end).

Definition indexName (env : Env) : string :=
  default "mediphant-test" (or_else (PINECONE_INDEX env) (Some "mediphant-test")).

(** [searchWithPinecone] *)
Definition searchWithPinecone (env : Env) (w : World) (s : FAQSearchService)
           (query : string) : io (list SearchMatch) :=
  if negb (pinecone s) || negb (openai s) then throw
  else
    (data <- call (CallEmbeddings query) (embeddings_create w query) ;;
     queryEmbedding <- match data with
                       | e :: _ => ret e
                       | [] => throw
                       end ;;
     found <- call (CallIndexQuery (indexName env))
                   (index_query w (indexName env) queryEmbedding) ;;
     ret match found with
         | Some ms =>
             List.filter (fun m => truthy (Some (text m))) (List.map of_pinecone ms)
         | None => []
         end)%io.

(** [search]: the flag of the service may change. *)
Definition search (env : Env) (w : World) (s : FAQSearchService)
           (query : string) : io (FAQSearchService * list SearchMatch) :=
  if useFallback s then ret (s, searchWithFallback query)
  else
    try_catch
      (ms <- searchWithPinecone env w s query ;; ret (s, ms))%io
      (ret (set_useFallback s, searchWithFallback query)).

Definition nl : string := String "010"%char EmptyString.
Definition dquote : string := String "034"%char EmptyString.

Definition NO_INFORMATION : string :=
  "I don't have specific information about that topic. Please consult with a healthcare professional for medical guidance.".

Definition prompt_of (query context : string) : string :=
  "Based on the following medical information, provide a concise answer to the question: "
  +:+ dquote +:+ query +:+ dquote +:+ nl +:+ nl
  +:+ "Context:" +:+ nl +:+ context +:+ nl +:+ nl
  +:+ "Please provide a helpful, accurate response. If the context doesn't contain enough information, say so and recommend consulting a healthcare professional.".

(** The last lines of [synthesizeAnswer], the simple synthesis. *)
Definition simple_synthesis (top : SearchMatch) (rest : list SearchMatch) : string :=
  match rest with
  | [] => text top
  | _ :: _ =>
      text top +:+ " For additional guidance, consult with a healthcare professional."
  end.

(** [synthesizeAnswer] *)
Definition synthesizeAnswer (w : World) (s : FAQSearchService) (query : string)
           (found : list SearchMatch) : io string :=
  match found with
  | [] => ret NO_INFORMATION
  | top :: rest =>
      if openai s && negb (useFallback s) then
        try_catch
          (let context := join (nl +:+ nl) (List.map text found) in
           content <- call (CallChat (prompt_of query context))
                           (chat_completions_create w (prompt_of query context)) ;;
           ret (default "Unable to generate response."
                        (or_else content (Some "Unable to generate response."))))%io
          (ret (simple_synthesis top rest))
      else ret (simple_synthesis top rest)
  end.

(** [handleFAQ] *)
Definition handleFAQ (env : Env) (w : World) (s : FAQSearchService)
           (query : string) : io (FAQSearchService * FAQResponse) :=
  (r <- search env w s query ;;
   a <- synthesizeAnswer w (fst r) query (snd r) ;;
   ret (fst r, mkFAQ a (snd r)))%io.

End Service.

(** ** The route handlers *)

Module Handlers.
Import Io Faq Service RateLimit QueryHistory Interactions.

(** The two request headers the handlers read; [None] is a missing header. *)
Record Headers : Type := mkHeaders {
  x_forwarded_for : option string;
  x_real_ip : option string
}.

(** [headers.get('x-forwarded-for') || headers.get('x-real-ip') || 'unknown'] *)
Definition clientIp (h : Headers) : string :=
  default "unknown"
    (or_else (x_forwarded_for h) (or_else (x_real_ip h) (Some "unknown"))).

(** The JSON bodies the handlers send. *)
Inductive Json : Type :=
| JError (error : string)
| JValidationFailed                     (* error and the list of details *)
| JFaq (r : FAQResponse)
| JFaqFailure (error answer : string)   (* with [matches: []] *)
| JInteraction (r : InteractionResult).

Record Response : Type := mkResponse {
  status : Z;
  retryAfter : option string;
  body : Json
}.

Definition RATE_LIMIT_EXCEEDED : string :=
  "Rate limit exceeded. Please try again later.".

Definition QUERY_REQUIRED : string :=
  "Query parameter " +:+ String "034"%char "q" +:+ String "034"%char " is required".

Definition too_many_requests : Response :=
  mkResponse 429 (Some "60") (JError RATE_LIMIT_EXCEEDED).

(** *** [GET /api/faq] *)

Record FaqRequest : Type := mkFaqRequest {
  faq_headers : Headers;
  q : option string                     (* [searchParams.get('q')] *)
}.

(** The handler, at time [now], in the world [w]: the response, the next
    state of the shared limiter, and the external calls that were made.
    A service object is constructed for the request. *)
Definition GET (env : Env) (w : World) (now : Z) (request : FaqRequest)
           (rl : RateLimiter) : Response * RateLimiter * list Call :=
  let '(allowed, rl1) := isAllowed now (clientIp (faq_headers request)) rl in
  if negb allowed then (too_many_requests, rl1, [])
  else
    match q request with
    | None => (mkResponse 400 None (JError QUERY_REQUIRED), rl1, [])
    | Some query =>
        if (negb (truthy (Some query)) || (jslength (trim query) =? 0))%Z then
          (mkResponse 400 None (JError QUERY_REQUIRED), rl1, [])
        else
          let searchService := new_FAQSearchService env w in
          match handleFAQ env w searchService (trim query) with
          | (made, Some (_, result)) => (mkResponse 200 None (JFaq result), rl1, made)
          | (made, None) =>
              (mkResponse 500 None
                 (JFaqFailure "Internal server error"
                    "Sorry, I encountered an error processing your request. Please consult with a healthcare professional."),
               rl1, made)
          end
    end.

(** *** [POST /api/interactions] *)

(** The parsed request body: [Unreadable] when [request.json()] rejects,
    otherwise the two fields, [None] for a field that is not a string. *)
Inductive RequestBody : Type :=
| Unreadable
| Parsed (a b : option string).

Record InteractionRequest : Type := mkInteractionRequest {
  int_headers : Headers;
  int_body : RequestBody
}.

(** A character of the class [[a-zA-Z0-9\s\-\.]]. *)
Definition medication_char (c : ascii) : bool :=
  let n := code c in
  (((97 <=? n) && (n <=? 122)) || ((65 <=? n) && (n <=? 90))
   || ((48 <=? n) && (n <=? 57)) || is_space c || (n =? 45) || (n =? 46))%N.

(** [VALIDATION_PATTERNS.MEDICATION_NAME.test(s)] *)
Definition MEDICATION_NAME (s : string) : bool :=
  match s with
  | EmptyString => false
  | String _ _ => forallb medication_char (list_ascii_of_string s)
  end.

(** One field of [InteractionRequestSchema]: a string, [min(1)] and
    [max(100)] on its length, then [trim()], then the pattern on the
    trimmed value, which is the parsed value. *)
Definition parse_medication (field : option string) : option string :=
  match field with
  | None => None
  | Some s =>
      if ((1 <=? jslength s) && (jslength s <=? 100))%Z
         && MEDICATION_NAME (trim s)
      then Some (trim s) else None
  end.

(** The shared objects of the process that the handler can reach. *)
Record Shared : Type := mkShared {
  limiter : RateLimiter;
  historyStore : QueryHistoryStore
}.

(** The handler; [now] is the clock of the limiter, [idNow] and [tsNow]
    the two clock readings of [addQuery]. *)
Definition POST (now idNow tsNow : Z) (request : InteractionRequest)
           (sh : Shared) : Response * Shared :=
  let '(allowed, rl1) := isAllowed now (clientIp (int_headers request)) (limiter sh) in
  let sh1 := mkShared rl1 (historyStore sh) in
  if negb allowed then (too_many_requests, sh1)
  else
    match int_body request with
    | Unreadable => (mkResponse 500 None (JError "Internal server error"), sh1)
    | Parsed fa fb =>
        match parse_medication fa, parse_medication fb with
        | Some a, Some b =>
            if String.eqb (trim (toLowerCase a)) (trim (toLowerCase b)) then
              (mkResponse 400 None
                 (JError "Please provide two different medications"), sh1)
            else
              let result := checkInteraction a b in
              (mkResponse 200 None (JInteraction result),
               mkShared rl1
                 (addQuery idNow tsNow a b
                    (Interactions.isPotentiallyRisky result)
                    (Interactions.reason result) (historyStore sh)))
        | _, _ => (mkResponse 400 None JValidationFailed, sh1)
        end
    end.

End Handlers.

(** ** Vocabulary of the specification

    The words of the specification about the lexical search, stated
    independently of the code: substrings, white-space-delimited tokens, the
    matching rule of a query term, and counting. *)

Module Spec.

(** [t] occurs in [s]. *)
Definition is_substring (t s : string) : Prop :=
  exists before after : string, s = before +:+ t +:+ after.

(** The white-space-delimited tokens of a string: its maximal runs of
    characters that are not white space.  A character that is followed by
    white space or by the end closes its token; otherwise it is put in
    front of the token that its successor starts. *)
Fixpoint whitespace_tokens (s : string) : list string :=
  match s with
  | EmptyString => []
  | String c r =>
      if is_space c then whitespace_tokens r
      else
        match r with
        | EmptyString => [String c EmptyString]
        | String d _ =>
            if is_space d then String c EmptyString :: whitespace_tokens r
            else
              match whitespace_tokens r with
              | tok :: toks => String c tok :: toks
              | [] => [String c EmptyString]
              end
        end
  end.

(** A query term is matched by a chunk when some chunk token contains it
    or is contained in it. *)
Definition term_matched (chunkTokens : list string) (term : string) : Prop :=
  exists chunkToken : string,
    In chunkToken chunkTokens
    /\ (is_substring term chunkToken \/ is_substring chunkToken term).

(** [counts P l n]: exactly [n] elements of [l] satisfy [P]. *)
Inductive counts {A : Type} (P : A -> Prop) : list A -> nat -> Prop :=
| counts_nil : counts P [] 0
| counts_yes x l n : P x -> counts P l n -> counts P (x :: l) (S n)
| counts_no x l n : ~ P x -> counts P l n -> counts P (x :: l) n.

(** The quotient of two counts. *)
Definition ratio (matched total : nat) : Q :=
  (inject_Z (Z.of_nat matched) / inject_Z (Z.of_nat total))%Q.

(** The sentence about the fallback score, for one query and one chunk:
    the score the search gives the chunk is the number of matched query
    tokens over the number of query tokens, both strings lowercased. *)
Definition score_is_matched_ratio (query chunk : string) : Prop :=
  let terms := whitespace_tokens (toLowerCase query) in
  let chunkTokens := whitespace_tokens (toLowerCase chunk) in
  exists matched : nat,
    counts (term_matched chunkTokens) terms matched
    /\ (Faq.score_of (split_ws (toLowerCase query)) chunk
        == ratio matched (length terms))%Q.

End Spec.

(** ** Sample surroundings

    Concrete environments, worlds and requests on which the handlers are
    run below. *)

Module Scenario.
Import Io Faq Service Handlers.

(** Both API keys are set. *)
Definition env_with_keys : Env :=
  mkEnv (Some "pc-key") (Some "sk-key") None.

(** Both services answer. *)
Definition world_up : World :=
  mkWorld false false
    (fun _ => Some [[1%Q; 0%Q]])
    (fun _ _ => Some (Some [mkPinecone (Some "Vector answer.") (Some (9 # 10)%Q)]))
    (fun _ => Some (Some "Generated.")).

(** The embedding service rejects every call. *)
Definition world_down : World :=
  mkWorld false false
    (fun _ => None)
    (fun _ _ => Some (Some [mkPinecone (Some "Vector answer.") (Some (9 # 10)%Q)]))
    (fun _ => Some (Some "Generated.")).

Definition faq_request (query : string) : FaqRequest :=
  mkFaqRequest (mkHeaders (Some "203.0.113.7") None) (Some query).

(** [" ".repeat(n)]: the blank queries. *)
Fixpoint blanks (n : nat) : string :=
  match n with
  | O => EmptyString
  | S m => String " "%char (blanks m)
  end.

Definition first_chunk : string :=
  "Medication adherence improves outcomes in diabetes; missed doses are a leading cause of poor control.".

End Scenario.

(** ** The limiter over time *)

Module LimiterRun.
Import RateLimit.

(** What happens to a limiter while the process runs: calls of [isAllowed]
    by the handlers and runs of [cleanup] by the interval timer. *)
Inductive Event : Type :=
| Allowed (now : Z) (identifier : string)
| Sweep (now : Z).

Definition step (rl : RateLimiter) (e : Event) : RateLimiter :=
  match e with
  | Allowed now identifier => (isAllowed now identifier rl).2
  | Sweep now => cleanup now rl
  end.

Definition run (events : list Event) (rl : RateLimiter) : RateLimiter :=
  fold_left step events rl.

(** Every stored count lies between 1 and the capacity (or 1, for a
    capacity below 1). *)
Definition counts_in_range (rl : RateLimiter) : Prop :=
  forall k e, requests rl !! k = Some e ->
              1 <= count e <= Z.max 1 (maxRequests rl).

(** The number of admitted calls among the answers. *)
Definition admitted (answers : list bool) : nat :=
  length (List.filter (fun b : bool => b) answers).

End LimiterRun.

(** ** The remaining handlers *)

Module Routes.
Import QueryHistory Handlers.

(** *** [/api/history] *)

Inductive HistoryJson : Type :=
| JHistory (history : list QueryHistoryItem)
| JMessage (message : string).

Record HistoryResponse : Type := mkHistoryResponse {
  history_status : Z;
  history_body : HistoryJson
}.

(** [GET]: the recent queries. *)
Definition history_GET (store : QueryHistoryStore)
  : HistoryResponse * QueryHistoryStore :=
  (mkHistoryResponse 200 (JHistory (getRecentQueries store)), store).

(** [DELETE]: the store is cleared. *)
Definition history_DELETE (store : QueryHistoryStore)
  : HistoryResponse * QueryHistoryStore :=
  (mkHistoryResponse 200 (JMessage "History cleared successfully"),
   clearHistory store).

(** *** The methods that are not served *)

(** [POST /api/faq] *)
Definition faq_POST : Response :=
  mkResponse 405 None
    (JError ("Method not allowed. Use GET with query parameter "
             +:+ String "034"%char "q" +:+ String "034"%char ".")).

(** [GET /api/interactions] *)
Definition interactions_GET : Response :=
  mkResponse 405 None (JError "Method not allowed. Use POST to check interactions.").

(** *** The form of the interactions page *)

(** [validateInputs()] on the two text fields: the message to show, or
    [None] for [null]. *)
Definition validateInputs (fieldA fieldB : string) : option string :=
  let trimmedA := trim fieldA in
  let trimmedB := trim fieldB in
  if negb (truthy (Some trimmedA)) || negb (truthy (Some trimmedB)) then
    Some "Both medication fields are required."
  else if String.eqb (toLowerCase trimmedA) (toLowerCase trimmedB) then
    Some "Please enter two different medications."
  else None.

(** The body [handleSubmit] posts: both fields trimmed. *)
Definition submitted_body (fieldA fieldB : string) : RequestBody :=
  Parsed (Some (trim fieldA)) (Some (trim fieldB)).

End Routes.

Example split_empty : split_ws "" = [""].
Proof. reflexivity. Qed.

Example split_leading : split_ws " a  b" = [""; "a"; "b"].
Proof. reflexivity. Qed.

Example split_trailing : split_ws "a b " = ["a"; "b"; ""].
Proof. reflexivity. Qed.

Example split_blank : split_ws "   " = [""; ""].
Proof. reflexivity. Qed.

Example includes_examples :
  includes "medication" "medic" = true /\ includes "medic" "medication" = false
  /\ includes "abc" "" = true /\ includes "" "" = true.
Proof. repeat split; reflexivity. Qed.

Example trim_example : trim "  a b  " = "a b".
Proof. reflexivity. Qed.

(** * Properties *)

(** ** The rate limiter *)

Section RateLimitFacts.
Import RateLimit.

Lemma isAllowed_windowMs now k rl : windowMs (isAllowed now k rl).2 = windowMs rl.
Proof.
  unfold isAllowed. destruct (absent_or_expired _ _); [done|].
  destruct (requests rl !! k); [|done]. by destruct (_ <=? _).
Qed.

Lemma isAllowed_maxRequests now k rl :
  maxRequests (isAllowed now k rl).2 = maxRequests rl.
Proof.
  unfold isAllowed. destruct (absent_or_expired _ _); [done|].
  destruct (requests rl !! k); [|done]. by destruct (_ <=? _).
Qed.

(** A call for [k] writes at most the entry of [k]. *)
Lemma isAllowed_lookup_ne now k k' rl :
  k ≠ k' -> requests (isAllowed now k rl).2 !! k' = requests rl !! k'.
Proof.
  intros Hne. unfold isAllowed.
  destruct (absent_or_expired _ _); simpl; [by rewrite lookup_insert_ne|].
  destruct (requests rl !! k); [|done].
  destruct (_ <=? _); simpl; [done|by rewrite lookup_insert_ne].
Qed.

(** A denied call returns the limiter it was given. *)
Lemma isAllowed_denied now k rl :
  (isAllowed now k rl).1 = false -> isAllowed now k rl = (false, rl).
Proof.
  unfold isAllowed. destruct (absent_or_expired _ _); [done|].
  destruct (requests rl !! k); [|done]. by destruct (_ <=? _).
Qed.

Lemma isAllowed_agree now k rl1 rl2 :
  agree_on k rl1 rl2 ->
  (isAllowed now k rl1).1 = (isAllowed now k rl2).1
  /\ agree_on k (isAllowed now k rl1).2 (isAllowed now k rl2).2.
Proof.
  intros (He & Hw & Hm). unfold agree_on, isAllowed. cbv zeta.
  rewrite He, Hw, Hm.
  destruct (absent_or_expired _ _); simpl.
  { by rewrite !lookup_insert_eq. }
  destruct (requests rl2 !! k) as [e|] eqn:E;
    [|simpl; repeat split; congruence].
  destruct (_ <=? _); simpl; [repeat split; congruence|].
  by rewrite !lookup_insert_eq.
Qed.

Lemma calls_agree ts k rl1 rl2 :
  agree_on k rl1 rl2 ->
  (calls ts k rl1).1 = (calls ts k rl2).1
  /\ agree_on k (calls ts k rl1).2 (calls ts k rl2).2.
Proof.
  revert rl1 rl2. induction ts as [|t ts IH]; intros rl1 rl2 H; [done|].
  simpl. destruct (isAllowed_agree t k rl1 rl2 H) as [Hb Ha].
  destruct (isAllowed t k rl1) as [b1 r1], (isAllowed t k rl2) as [b2 r2].
  simpl in *. specialize (IH _ _ Ha).
  destruct (calls ts k r1), (calls ts k r2). simpl in *.
  destruct IH as [-> ?]. by subst.
Qed.

Lemma getRemaining_agree now k rl1 rl2 :
  agree_on k rl1 rl2 -> getRemaining now k rl1 = getRemaining now k rl2.
Proof. intros (He & Hw & Hm). unfold getRemaining. by rewrite He, Hm. Qed.

(** Traffic on [k] leaves another key where it was. *)
Lemma calls_agree_other ts k k' rl :
  k ≠ k' -> agree_on k' (calls ts k rl).2 rl.
Proof.
  intros Hne. revert rl. induction ts as [|t ts IH]; intros rl; [done|].
  simpl. pose proof (isAllowed_lookup_ne t k k' rl Hne) as Hl.
  pose proof (isAllowed_windowMs t k rl) as Hw.
  pose proof (isAllowed_maxRequests t k rl) as Hm.
  destruct (isAllowed t k rl) as [b r1]. simpl in *.
  specialize (IH r1). destruct (calls ts k r1) as [bs r2]. simpl in *.
  destruct IH as (? & ? & ?). unfold agree_on. repeat split; congruence.
Qed.

(** Calls inside a running window: with [c] requests counted so far, the
    next [maxRequests - c] calls are admitted and all later ones denied;
    the reset time stays. *)
Lemma calls_in_window ts : forall k rl c R,
  requests rl !! k = Some (mkEntry c R) ->
  Forall (fun t => t <= R) ts ->
  c <= maxRequests rl ->
  let n := Z.to_nat (maxRequests rl - c) in
  (calls ts k rl).1
    = (replicate (Nat.min n (length ts)) true
       ++ replicate (length ts - n) false)%list
  /\ requests (calls ts k rl).2 !! k
     = Some (mkEntry (Z.min (maxRequests rl) (c + Z.of_nat (length ts))) R)
  /\ windowMs (calls ts k rl).2 = windowMs rl
  /\ maxRequests (calls ts k rl).2 = maxRequests rl.
Proof.
  induction ts as [|t ts IH]; intros k rl c R He Hts Hc n.
  { simpl. rewrite Nat.min_0_r. simpl. rewrite He. repeat split.
    f_equal. f_equal. lia. }
  inversion Hts as [|? ? Ht Hts']; subst. simpl.
  unfold isAllowed. rewrite He. simpl.
  destruct (Z.ltb_spec R t) as [?|_]; [lia|].
  destruct (Z.leb_spec (maxRequests rl) c) as [Hfull|Hroom].
  - assert (c = maxRequests rl) by lia. subst c.
    specialize (IH k rl _ R He Hts' Hc).
    destruct (calls ts k rl) as [bs r2]. simpl in *.
    destruct IH as (-> & -> & -> & ->).
    subst n. replace (maxRequests rl - maxRequests rl) with 0 by lia.
    simpl. rewrite Nat.sub_0_r. repeat split. f_equal. f_equal. lia.
  - set (rl1 := with_requests rl _).
    assert (He1 : requests rl1 !! k = Some (mkEntry (c + 1) R)).
    { subst rl1. simpl. by rewrite lookup_insert_eq. }
    assert (Hc1 : c + 1 <= maxRequests rl1) by (subst rl1; simpl; lia).
    specialize (IH k rl1 _ R He1 Hts' Hc1).
    destruct (calls ts k rl1) as [bs r2]. simpl in *.
    destruct IH as (-> & -> & -> & ->).
    subst n. replace (Z.to_nat (maxRequests rl - c))
      with (S (Z.to_nat (maxRequests rl - (c + 1)))) by lia.
    simpl. repeat split. f_equal. f_equal. lia.
Qed.

End RateLimitFacts.

Section RateLimitClaims.
Import RateLimit.

(** C4, as stated, fails for capacity 0: the first call of a client
    without an entry is admitted without a look at [maxRequests], so the
    [(0+1)]th call returns true where the claim wants false. *)
Lemma isAllowed_zero_capacity_admits :
  let rl := create 60000 0 in
  absent_or_expired 0 (requests rl !! "client") = true
  /\ (calls [0] "client" rl).1 = [true]
  /\ (calls [0] "client" rl).1
     <> (replicate (Z.to_nat (maxRequests rl)) true ++ [false])%list.
Proof. vm_compute. repeat split. discriminate. Qed.

(** C4 (amended with capacity at least 1).  For a limiter with window
    [windowMs] and capacity [maxRequests >= 1] and a key without a live
    entry at time [t0]: of [maxRequests + 1] calls, the first at [t0] and
    the others not later than [t0 + windowMs], the first [maxRequests]
    return true and the last returns false; a call later than
    [t0 + windowMs] returns true and replaces the entry by count 1 with a
    new reset time. *)
Theorem isAllowed_fixed_window (rl : RateLimiter) (k : string) (t0 : Z)
        (ts : list Z) (t' : Z) :
  1 <= maxRequests rl ->
  absent_or_expired t0 (requests rl !! k) = true ->
  Forall (fun t => t <= t0 + windowMs rl) ts ->
  Z.of_nat (length (t0 :: ts)) = maxRequests rl + 1 ->
  t0 + windowMs rl < t' ->
  (calls (t0 :: ts) k rl).1
    = (replicate (Z.to_nat (maxRequests rl)) true ++ [false])%list
  /\ let rl1 := (calls (t0 :: ts) k rl).2 in
     isAllowed t' k rl1
     = (true, with_requests rl1
                (<[k := mkEntry 1 (t' + windowMs rl)]> (requests rl1)))
     /\ requests (isAllowed t' k rl1).2 !! k
        = Some (mkEntry 1 (t' + windowMs rl)).
Proof.
  intros Hcap Hdead Hts Hlen Hlate.
  set (rl0 := with_requests rl
                (<[k := mkEntry 1 (t0 + windowMs rl)]> (requests rl))).
  assert (Hcalls : calls (t0 :: ts) k rl
                   = (true :: (calls ts k rl0).1, (calls ts k rl0).2)).
  { cbn [calls]. unfold isAllowed. rewrite Hdead. fold rl0.
    by destruct (calls ts k rl0). }
  rewrite Hcalls. cbn [fst snd]. clear Hcalls.
  assert (He : requests rl0 !! k = Some (mkEntry 1 (t0 + windowMs rl))).
  { subst rl0. simpl. by rewrite lookup_insert_eq. }
  assert (Hc : 1 <= maxRequests rl0) by (subst rl0; simpl; lia).
  destruct (calls_in_window ts k rl0 _ _ He Hts Hc) as (Hb & Hr & Hw & Hm).
  destruct (calls ts k rl0) as [bs rl1]. cbn [fst snd] in *.
  change (maxRequests rl0) with (maxRequests rl) in *.
  change (windowMs rl0) with (windowMs rl) in *.
  assert (Hn : length ts = Z.to_nat (maxRequests rl)) by (simpl in Hlen; lia).
  split.
  - rewrite Hb, Hn.
    replace (Z.to_nat (maxRequests rl - 1))
      with (Z.to_nat (maxRequests rl) - 1)%nat by lia.
    replace (Nat.min _ _) with (Z.to_nat (maxRequests rl) - 1)%nat by lia.
    replace (Z.to_nat (maxRequests rl) - (Z.to_nat (maxRequests rl) - 1))%nat
      with 1%nat by lia.
    destruct (Z.to_nat (maxRequests rl)) as [|m] eqn:Em; [lia|].
    simpl. by rewrite Nat.sub_0_r.
  - cbv zeta. unfold isAllowed. rewrite Hr. cbn [absent_or_expired resetTime].
    destruct (Z.ltb_spec (t0 + windowMs rl) t') as [_|?]; [|lia].
    rewrite Hw. split; [done|]. simpl. by rewrite lookup_insert_eq.
Qed.

Lemma isAllowed_fixed_window_witness :
  (calls [0; 10; 20; 30] "client" (create 1000 3)).1 = [true; true; true; false]
  /\ requests (isAllowed 1001 "client"
                 (calls [0; 10; 20; 30] "client" (create 1000 3)).2).2
       !! "client"
     = Some (mkEntry 1 2001).
Proof.
  destruct (isAllowed_fixed_window (create 1000 3) "client" 0 [10; 20; 30] 1001)
    as (H1 & _ & H3).
  - simpl; lia.
  - reflexivity.
  - repeat constructor; simpl; lia.
  - reflexivity.
  - simpl; lia.
  - split; [exact H1 | exact H3].
Defined.

(** C10.  Keys are isolated: after any traffic on [k] (calls of
    [isAllowed] at any times), the entry of another key [k'] is the one it
    was, and so are [getRemaining(k')] at every time and the answers of
    every later sequence of [isAllowed(k')] calls. *)
Theorem isAllowed_keys_isolated (rl : RateLimiter) (k k' : string)
        (traffic : list Z) :
  k <> k' ->
  let rl' := (calls traffic k rl).2 in
  requests rl' !! k' = requests rl !! k'
  /\ (forall now, getRemaining now k' rl' = getRemaining now k' rl)
  /\ (forall later, (calls later k' rl').1 = (calls later k' rl).1).
Proof.
  intros Hne rl'. pose proof (calls_agree_other traffic k k' rl Hne) as Ha.
  fold rl' in Ha. split; [apply Ha|]. split.
  - intros now. by apply getRemaining_agree.
  - intros later. by apply calls_agree.
Qed.

Lemma isAllowed_keys_isolated_witness :
  requests (calls [0; 1; 2] "a" (create 1000 2)).2 !! "b"
    = requests (create 1000 2) !! "b"
  /\ getRemaining 5 "b" (calls [0; 1; 2] "a" (create 1000 2)).2 = 2.
Proof.
  destruct (isAllowed_keys_isolated (create 1000 2) "a" "b" [0; 1; 2])
    as (H1 & H2 & _).
  - discriminate.
  - split; [exact H1|]. rewrite H2. reflexivity.
Defined.

End RateLimitClaims.

(** ** The query history *)

Section HistoryFacts.
Import QueryHistory.

Lemma firstn_app_firstn {A} (n : nat) (a b : list A) :
  firstn n (a ++ firstn n b) = firstn n (a ++ b).
Proof.
  rewrite !firstn_app, firstn_firstn. f_equal. f_equal. lia.
Qed.

(** One [addQuery] puts the item in front and keeps ten. *)
Lemma add_firstn (c : AddCall) (h : QueryHistoryStore) :
  add c h = firstn maxItems (item_of c :: h).
Proof.
  unfold add, addQuery. fold (item_of c).
  destruct (Nat.ltb_spec maxItems (length (item_of c :: h))) as [?|Hle]; [done|].
  symmetry. by apply firstn_all2.
Qed.

(** After at least one [addQuery] the store holds the ten most recent
    items of the calls and of what was there, most recent first. *)
Lemma addAll_firstn (cs : list AddCall) : forall h : QueryHistoryStore,
  cs <> [] ->
  addAll cs h = firstn maxItems (rev (List.map item_of cs) ++ h).
Proof.
  induction cs as [|c cs IH]; intros h Hne; [done|].
  unfold addAll in *. simpl. rewrite add_firstn.
  destruct cs as [|c' cs'].
  - reflexivity.
  - rewrite IH by done. rewrite firstn_app_firstn.
    f_equal. rewrite <- !app_assoc. reflexivity.
Qed.

(** C6.  From any state of the store, after fifteen [addQuery] calls
    [getRecentQueries()] has length 10, starts with the item of the
    fifteenth call, and is the ten latest items, most recent first;
    after [clearHistory()] it is empty, also when the store was empty. *)
Theorem history_fifteen_adds (h : QueryHistoryStore) (cs : list AddCall)
        (last : AddCall) :
  length cs = 14%nat ->
  let h' := addAll (cs ++ [last]) h in
  length (getRecentQueries h') = 10%nat
  /\ hd_error (getRecentQueries h') = Some (item_of last)
  /\ getRecentQueries h' = firstn 10 (rev (List.map item_of (cs ++ [last])))
  /\ getRecentQueries (clearHistory h') = []
  /\ getRecentQueries (clearHistory empty) = [].
Proof.
  intros Hlen h'. unfold getRecentQueries, clearHistory.
  assert (Hh : h' = firstn 10 (rev (List.map item_of (cs ++ [last])))).
  { subst h'. rewrite addAll_firstn by (by destruct cs).
    unfold maxItems. rewrite firstn_app.
    rewrite length_rev, length_map, length_app, Hlen. simpl.
    by rewrite app_nil_r. }
  rewrite Hh. repeat split.
  - rewrite firstn_length_le; [done|].
    rewrite length_rev, length_map, length_app, Hlen. simpl. lia.
  - rewrite map_app, rev_app_distr. reflexivity.
Qed.

Lemma history_fifteen_adds_witness :
  let c (n : Z) := mkAdd n n "warfarin" "ibuprofen" true "increased bleeding risk" in
  let h' := addAll (List.map c [1; 2; 3; 4; 5; 6; 7; 8; 9; 10; 11; 12; 13; 14] ++ [c 15])
                   [item_of (c 0)] in
  length (getRecentQueries h') = 10%nat
  /\ hd_error (getRecentQueries h') = Some (item_of (c 15)).
Proof.
  intros c h'.
  destruct (history_fifteen_adds [item_of (c 0)]
              (List.map c [1; 2; 3; 4; 5; 6; 7; 8; 9; 10; 11; 12; 13; 14]) (c 15))
    as (H1 & H2 & _).
  - reflexivity.
  - split; [exact H1 | exact H2].
Defined.

End HistoryFacts.

(** ** Strings *)

Section StringFacts.
Import Spec.

Lemma split_from_nonempty (b : bool) (s : string) : split_from b s <> [].
Proof.
  revert b. induction s as [|c r IH]; intros b; simpl; [done|].
  destruct (is_space c).
  - destruct b; [apply IH | done].
  - destruct (split_from false r); done.
Qed.

Lemma split_ws_length (s : string) : (1 <= length (split_ws s))%nat.
Proof.
  pose proof (split_from_nonempty false s) as H. unfold split_ws.
  destruct (split_from false s); [done | simpl; lia].
Qed.

(** Lowercasing neither makes nor removes white space. *)
Lemma is_space_lower (c : ascii) : is_space (lower_char c) = is_space c.
Proof. destruct c as [[] [] [] [] [] [] [] []]; reflexivity. Qed.

Lemma toLowerCase_trimStart (s : string) :
  toLowerCase (trimStart s) = trimStart (toLowerCase s).
Proof.
  induction s as [|c r IH]; simpl; [done|]. rewrite is_space_lower.
  destruct (is_space c); [apply IH | done].
Qed.

Lemma toLowerCase_trimEnd (s : string) :
  toLowerCase (trimEnd s) = trimEnd (toLowerCase s).
Proof.
  induction s as [|c r IH]; simpl; [done|]. rewrite <- IH, is_space_lower.
  destruct (trimEnd r); simpl; [by destruct (is_space c) | done].
Qed.

Lemma toLowerCase_trim (s : string) : toLowerCase (trim s) = trim (toLowerCase s).
Proof. unfold trim. by rewrite toLowerCase_trimEnd, toLowerCase_trimStart. Qed.

Lemma toLowerCase_empty (s : string) : toLowerCase s = EmptyString -> s = EmptyString.
Proof. by destruct s. Qed.

Lemma trimEnd_cons (c : ascii) (r : string) :
  trimEnd (String c r)
  = match trimEnd r with
    | EmptyString => if is_space c then EmptyString else String c EmptyString
    | r' => String c r'
    end.
Proof. reflexivity. Qed.

Lemma trimEnd_idem (s : string) : trimEnd (trimEnd s) = trimEnd s.
Proof.
  induction s as [|c r IH]; [done|]. rewrite trimEnd_cons.
  destruct (trimEnd r) as [|a r'] eqn:E.
  - destruct (is_space c) eqn:Hc; [done|]. rewrite trimEnd_cons. simpl.
    by rewrite Hc.
  - rewrite trimEnd_cons, IH. reflexivity.
Qed.

Lemma trimStart_head (s : string) :
  trimStart s = EmptyString
  \/ exists c r, trimStart s = String c r /\ is_space c = false.
Proof.
  induction s as [|c r IH]; simpl; [by left|].
  destruct (is_space c) eqn:Hc; [done|]. right. by exists c, r.
Qed.

Lemma trimEnd_head (c : ascii) (r : string) :
  is_space c = false -> exists r', trimEnd (String c r) = String c r'.
Proof.
  intros Hc. rewrite trimEnd_cons. destruct (trimEnd r) as [|a r'].
  - rewrite Hc. by eexists.
  - by eexists.
Qed.

Lemma split_from_cons (b : bool) (c : ascii) (r : string) :
  split_from b (String c r)
  = if is_space c then
      if b then split_from true r else EmptyString :: split_from true r
    else match split_from false r with
         | f :: fs => String c f :: fs
         | [] => [String c EmptyString]
         end.
Proof. reflexivity. Qed.

Lemma whitespace_tokens_cons (c : ascii) (r : string) :
  whitespace_tokens (String c r)
  = if is_space c then whitespace_tokens r
    else match r with
         | EmptyString => [String c EmptyString]
         | String d _ =>
             if is_space d then String c EmptyString :: whitespace_tokens r
             else match whitespace_tokens r with
                  | tok :: toks => String c tok :: toks
                  | [] => [String c EmptyString]
                  end
         end.
Proof. reflexivity. Qed.

(** After a separator, the fields of a string that does not end in white
    space are its tokens. *)
Lemma split_true_tokens (s : string) :
  trimEnd s = s -> s <> EmptyString -> split_from true s = whitespace_tokens s.
Proof.
  induction s as [|c r IH]; [done|]. intros He _.
  rewrite trimEnd_cons in He.
  rewrite split_from_cons, whitespace_tokens_cons.
  destruct (trimEnd r) as [|a r'] eqn:Er.
  - destruct (is_space c) eqn:Hc; [done|].
    injection He as <-. reflexivity.
  - injection He as Hr. subst r.
    specialize (IH eq_refl ltac:(done)).
    destruct (is_space c); [exact IH|].
    rewrite split_from_cons in *.
    destruct (is_space a); [by rewrite IH|].
    rewrite IH. reflexivity.
Qed.

(** What [trim] returns splits into its tokens: no field is empty. *)
Lemma split_ws_trim (raw : string) :
  trim raw <> EmptyString -> split_ws (trim raw) = whitespace_tokens (trim raw).
Proof.
  unfold trim, split_ws.
  destruct (trimStart_head raw) as [E | (c & r & E & Hc)]; rewrite E; [done|].
  destruct (trimEnd_head c r Hc) as [r' E']. intros Hne.
  pose proof (trimEnd_idem (String c r)) as Hid. rewrite E' in *.
  rewrite <- (split_true_tokens _ Hid Hne).
  rewrite !split_from_cons, Hc. reflexivity.
Qed.

Lemma append_cons (c : ascii) (s t : string) :
  String c s +:+ t = String c (s +:+ t).
Proof. reflexivity. Qed.

Lemma append_empty (t : string) : EmptyString +:+ t = t.
Proof. reflexivity. Qed.

Lemma startsWith_spec (t : string) : forall s : string,
  startsWith s t = true <-> exists rest : string, s = t +:+ rest.
Proof.
  induction t as [|a t IH]; intros s; simpl.
  - split; [intros _; by exists s | done].
  - destruct s as [|b s].
    + split; [done | intros [? ?]; done].
    + destruct (Ascii.eqb_spec a b) as [->|Hne].
      * rewrite IH. split; intros [x Hx]; exists x;
          rewrite append_cons in *; congruence.
      * split; [done | intros [x Hx]; rewrite append_cons in Hx; congruence].
Qed.

(** [includes] decides the substring relation. *)
Lemma includes_spec (s t : string) : includes s t = true <-> is_substring t s.
Proof.
  unfold is_substring. induction s as [|c s IH]; simpl includes.
  - rewrite orb_false_r, startsWith_spec. split.
    + intros [x Hx]. by exists EmptyString, x.
    + intros (a & x & Hx). destruct a; [by exists x | done].
  - rewrite orb_true_iff, startsWith_spec, IH. split.
    + intros [[x Hx] | (a & x & Hx)].
      * by exists EmptyString, x.
      * exists (String c a), x. rewrite append_cons. by rewrite Hx.
    + intros (a & x & Hx). destruct a as [|c' a].
      * left. by exists x.
      * right. exists a, x. rewrite append_cons in Hx. congruence.
Qed.

Lemma includes_empty (s : string) : includes s EmptyString = true.
Proof. destruct s; reflexivity. Qed.

Lemma counts_filter {A} (f : A -> bool) (P : A -> Prop) (l : list A) :
  (forall x, f x = true <-> P x) -> counts P l (length (List.filter f l)).
Proof.
  intros H. induction l as [|x l IH]; simpl; [constructor|].
  destruct (f x) eqn:E.
  - simpl. constructor; [by apply H | done].
  - constructor; [|done]. rewrite <- H. congruence.
Qed.

End StringFacts.

(** ** The lexical fallback search *)

Section SortFacts.
Import Faq.

Lemma Qlt_b_spec (a b : Q) : Qlt_b a b = true <-> (a < b)%Q.
Proof.
  unfold Qlt_b. rewrite negb_true_iff. split.
  - intros H. apply Qnot_le_lt. rewrite <- Qle_bool_iff. congruence.
  - intros H. destruct (Qle_bool b a) eqn:E; [|done].
    apply Qle_bool_iff in E. by apply Qlt_not_le in H.
Qed.

Context {A : Type} (compareFn : A -> A -> Q).

Lemma In_insert_stable (x z : A) (l : list A) :
  In z (insert_stable compareFn x l) <-> z = x \/ In z l.
Proof.
  induction l as [|y r IH]; simpl; [intuition congruence|].
  destruct (Qlt_b 0 (compareFn x y)); simpl; [rewrite IH|]; intuition congruence.
Qed.

Lemma In_sort (z : A) (l : list A) : In z (sort compareFn l) <-> In z l.
Proof.
  induction l as [|x l IH]; simpl; [done|].
  rewrite In_insert_stable, IH. intuition congruence.
Qed.

Lemma sort_length (l : list A) : length (sort compareFn l) = length l.
Proof.
  induction l as [|x l IH]; simpl; [done|]. rewrite <- IH.
  generalize (sort compareFn l). intros s.
  induction s as [|y r IHr]; simpl; [done|].
  destruct (Qlt_b 0 (compareFn x y)); simpl; [by rewrite IHr | done].
Qed.

(** Sorting entries that carry a tag the compare function does not see. *)
Context {T : Type}.

Lemma map_snd_insert (x : T * A) (l : list (T * A)) :
  List.map snd (insert_stable (fun a b => compareFn (snd a) (snd b)) x l)
  = insert_stable compareFn (snd x) (List.map snd l).
Proof.
  induction l as [|y r IH]; simpl; [done|].
  destruct (Qlt_b 0 (compareFn (snd x) (snd y))); simpl; [by rewrite IH | done].
Qed.

Lemma map_snd_sort (l : list (T * A)) :
  List.map snd (sort (fun a b => compareFn (snd a) (snd b)) l)
  = sort compareFn (List.map snd l).
Proof.
  induction l as [|x l IH]; simpl; [done|]. by rewrite map_snd_insert, IH.
Qed.

Lemma map_snd_filter (f : A -> bool) (l : list (T * A)) :
  List.map snd (List.filter (fun p => f (snd p)) l)
  = List.filter f (List.map snd l).
Proof.
  induction l as [|x l IH]; simpl; [done|].
  destruct (f (snd x)); simpl; by rewrite IH.
Qed.

End SortFacts.

Section ListFacts.
Context {A : Type}.

Lemma StronglySorted_filter_keeps (R : A -> A -> Prop) (f : A -> bool) (l : list A) :
  StronglySorted R l -> StronglySorted R (List.filter f l).
Proof.
  induction 1 as [|x l Hs IH Hx]; simpl; [constructor|].
  destruct (f x); [|done]. constructor; [done|].
  rewrite List.Forall_forall in *. intros y Hy.
  apply filter_In in Hy. apply Hx, Hy.
Qed.

Lemma In_firstn (n : nat) (l : list A) (x : A) : In x (firstn n l) -> In x l.
Proof.
  revert l. induction n as [|n IH]; intros [|y l]; simpl; try done.
  intros [->|H]; [by left | right; by apply IH].
Qed.

Lemma StronglySorted_firstn (R : A -> A -> Prop) (n : nat) (l : list A) :
  StronglySorted R l -> StronglySorted R (firstn n l).
Proof.
  intros H. revert n. induction H as [|x l Hs IH Hx]; intros [|n]; simpl;
    try constructor; [apply IH|].
  rewrite List.Forall_forall in *. intros y Hy.
  apply Hx. revert Hy. apply In_firstn.
Qed.

(** The ordinals that [with_ordinals] attaches: increasing, and each the
    position of its entry. *)
Lemma combine_seq_sorted (l : list A) : forall s : nat,
  StronglySorted (fun a b : nat * A => (fst a < fst b)%nat)
                 (combine (seq s (length l)) l)
  /\ forall p, In p (combine (seq s (length l)) l) ->
               (s <= fst p)%nat /\ l !! (fst p - s)%nat = Some (snd p).
Proof.
  induction l as [|x l IH]; intros s; simpl.
  - split; [constructor | done].
  - destruct (IH (S s)) as [Hs Hin]. split.
    + constructor; [done|]. rewrite List.Forall_forall. intros p Hp.
      apply Hin in Hp. simpl. lia.
    + intros p [<- | Hp]; simpl.
      * rewrite Nat.sub_diag. split; [lia | done].
      * apply Hin in Hp as [Hle Hl]. split; [lia|].
        replace (fst p - s)%nat with (S (fst p - S s)) by lia. done.
Qed.

Lemma with_ordinals_sorted (l : list A) :
  StronglySorted (fun a b : nat * A => (fst a < fst b)%nat) (Faq.with_ordinals l).
Proof. apply combine_seq_sorted. Qed.

Lemma with_ordinals_lookup (l : list A) (p : nat * A) :
  In p (Faq.with_ordinals l) -> l !! fst p = Some (snd p).
Proof.
  intros H. apply combine_seq_sorted in H as [_ H].
  by rewrite Nat.sub_0_r in H.
Qed.

Lemma map_snd_with_ordinals (l : list A) : List.map snd (Faq.with_ordinals l) = l.
Proof.
  unfold Faq.with_ordinals. generalize 0%nat.
  induction l as [|x l IH]; intros s; simpl; [done|]. by rewrite IH.
Qed.

Lemma lookup_map_Some {B} (f : A -> B) (l : list A) (i : nat) (y : B) :
  List.map f l !! i = Some y -> exists x, l !! i = Some x /\ y = f x.
Proof.
  revert i. induction l as [|x l IH]; intros [|i]; simpl; try done.
  - intros [= <-]. by exists x.
  - apply IH.
Qed.

End ListFacts.

Section FallbackFacts.
Import Faq Spec.

Lemma by_score_desc_pos (x y : SearchMatch) :
  Qlt_b 0 (by_score_desc x y) = true <-> (score x < score y)%Q.
Proof.
  rewrite Qlt_b_spec. unfold by_score_desc, Qminus. symmetry.
  apply Qlt_minus_iff.
Qed.

Lemma ranked_before_le (a b : nat * SearchMatch) :
  ranked_before a b -> (score (snd b) <= score (snd a))%Q.
Proof.
  intros [H | [H _]]; [by apply Qlt_le_weak|].
  rewrite H. apply Qle_refl.
Qed.

(** Insertion keeps the ranking when the new entry has the least ordinal. *)
Lemma insert_ranked (x : nat * SearchMatch) (l : list (nat * SearchMatch)) :
  StronglySorted ranked_before l ->
  List.Forall (fun y => (fst x < fst y)%nat) l ->
  StronglySorted ranked_before (insert_stable by_score_desc_tagged x l).
Proof.
  induction 1 as [|y r Hs IH Hy]; intros Hx; simpl.
  { repeat constructor. }
  inversion Hx as [|? ? Hxy Hxr]; subst.
  unfold by_score_desc_tagged at 1.
  destruct (Qlt_b 0 (by_score_desc (snd x) (snd y))) eqn:E.
  - apply by_score_desc_pos in E. constructor; [by apply IH|].
    rewrite List.Forall_forall in *. intros z Hz.
    apply In_insert_stable in Hz as [-> | Hz]; [by left | by apply Hy].
  - assert (Hle : (score (snd y) <= score (snd x))%Q).
    { apply Qnot_lt_le. intros Hlt. apply by_score_desc_pos in Hlt. congruence. }
    constructor; [by constructor|].
    assert (Hall : forall z, In z (y :: r) ->
              (score (snd z) <= score (snd x))%Q /\ (fst x < fst z)%nat).
    { rewrite List.Forall_forall in *. intros z [<- | Hz]; [done|].
      split; [|by apply Hxr].
      eapply Qle_trans; [|exact Hle]. by apply ranked_before_le, Hy. }
    rewrite List.Forall_forall. intros z Hz. apply Hall in Hz as [Hzx Hord].
    destruct (Qlt_le_dec (score (snd z)) (score (snd x))) as [?|Hge];
      [by left | right].
    split; [by apply Qle_antisym | done].
Qed.

(** The stable sort by descending score ranks entries that come in ordinal
    order. *)
Lemma sort_ranked (l : list (nat * SearchMatch)) :
  StronglySorted (fun a b => (fst a < fst b)%nat) l ->
  StronglySorted ranked_before (sort by_score_desc_tagged l).
Proof.
  induction 1 as [|x l Hs IH Hx]; simpl; [constructor|].
  apply insert_ranked; [done|].
  rewrite List.Forall_forall in *. intros y Hy. apply Hx.
  by apply In_sort in Hy.
Qed.

Lemma top3_with_ordinals_snd (entries : list (nat * SearchMatch)) :
  List.map snd (top3_with_ordinals entries) = top3 (List.map snd entries).
Proof.
  unfold top3_with_ordinals, top3.
  rewrite <- firstn_map.
  change by_score_desc_tagged
    with (fun a b : nat * SearchMatch => by_score_desc (snd a) (snd b)).
  rewrite (map_snd_sort by_score_desc).
  by rewrite (map_snd_filter (fun m => Qlt_b 0 (score m))).
Qed.

Lemma top3_with_ordinals_In (entries : list (nat * SearchMatch)) p :
  In p (top3_with_ordinals entries) ->
  In p entries /\ (0 < score (snd p))%Q.
Proof.
  unfold top3_with_ordinals. intros H. apply In_firstn, In_sort in H.
  apply filter_In in H as [H1 H2]. by apply Qlt_b_spec in H2.
Qed.

(** The result of the search over any corpus, with the ordinals made
    visible. *)
Lemma searchWithFallback_on_ranked (corpus : list string) (query : string) :
  let found := searchWithFallback_on corpus query in
  (length found <= 3)%nat
  /\ List.Forall (fun m => (0 < score m)%Q) found
  /\ exists ranked : list (nat * SearchMatch),
       List.map snd ranked = found
       /\ List.Forall (fun p => scores_on corpus query !! fst p = Some (snd p)
                                /\ corpus !! fst p = Some (text (snd p))) ranked
       /\ StronglySorted ranked_before ranked.
Proof.
  intros found.
  set (ranked := top3_with_ordinals (with_ordinals (scores_on corpus query))).
  assert (Hmap : List.map snd ranked = found).
  { subst ranked found. rewrite top3_with_ordinals_snd, map_snd_with_ordinals.
    reflexivity. }
  split; [|split].
  - subst found. unfold searchWithFallback_on, top3.
    rewrite length_firstn. lia.
  - rewrite <- Hmap. rewrite List.Forall_forall. intros m Hm.
    apply in_map_iff in Hm as (p & <- & Hp).
    by apply top3_with_ordinals_In in Hp as [_ ?].
  - exists ranked. split; [done|]. split.
    + rewrite List.Forall_forall. intros p Hp.
      apply top3_with_ordinals_In in Hp as [Hp _].
      apply with_ordinals_lookup in Hp. split; [done|].
      unfold scores_on in Hp. apply lookup_map_Some in Hp as (txt & Ht & ->).
      done.
    + subst ranked. unfold top3_with_ordinals.
      apply StronglySorted_firstn, sort_ranked, StronglySorted_filter_keeps.
      apply with_ordinals_sorted.
Qed.

Lemma term_hits_spec (chunkTokens : list string) (term : string) :
  term_hits chunkTokens term = true <-> term_matched chunkTokens term.
Proof.
  unfold term_hits, term_matched. rewrite existsb_exists.
  split; intros (x & Hin & H); exists x; (split; [done|]).
  - apply orb_true_iff in H. by rewrite <- !includes_spec.
  - apply orb_true_iff. by rewrite !includes_spec.
Qed.

(** The empty term is found in every text. *)
Lemma term_hits_empty (txt : string) :
  term_hits (split_ws (toLowerCase txt)) EmptyString = true.
Proof.
  unfold term_hits, split_ws.
  pose proof (split_from_nonempty false (toLowerCase txt)) as H.
  destruct (split_from false (toLowerCase txt)) as [|f fs]; [done|].
  simpl. by rewrite includes_empty.
Qed.

(** For a query and a text as [trim] returns them, the score of the code
    is the ratio of the specification. *)
Lemma score_of_trimmed (rawQuery rawText : string) :
  trim rawQuery <> EmptyString -> trim rawText <> EmptyString ->
  score_is_matched_ratio (trim rawQuery) (trim rawText).
Proof.
  intros Hq Ht. unfold score_is_matched_ratio, score_of.
  rewrite !toLowerCase_trim.
  assert (Hq' : trim (toLowerCase rawQuery) <> EmptyString).
  { rewrite <- toLowerCase_trim. intros E. by apply toLowerCase_empty in E. }
  assert (Ht' : trim (toLowerCase rawText) <> EmptyString).
  { rewrite <- toLowerCase_trim. intros E. by apply toLowerCase_empty in E. }
  rewrite !split_ws_trim by done.
  eexists. split.
  - apply counts_filter. apply term_hits_spec.
  - reflexivity.
Qed.

End FallbackFacts.

Section FallbackClaims.
Import Faq Spec Io Service Handlers Scenario.

(** C2, as stated, fails for a query with leading white space: [" zzz"]
    has the single token [zzz], which no token of the first chunk
    contains or is contained in, so the claimed score is 0/1; the code
    splits the query into the empty field and [zzz], finds the empty field
    in every chunk token, and gives the chunk the score 1/2. *)
Lemma fallback_score_leading_space :
  whitespace_tokens " zzz" = ["zzz"]
  /\ In first_chunk FALLBACK_CORPUS
  /\ split_ws (toLowerCase " zzz") = [""; "zzz"]
  /\ In (mkMatch first_chunk (1 # 2)) (scores " zzz")
  /\ ~ score_is_matched_ratio " zzz" first_chunk.
Proof.
  split; [reflexivity|]. split; [by left|]. split; [reflexivity|].
  split; [by left|].
  intros (m & Hc & Hs).
  assert (Hm : m = 0%nat \/ m = 1%nat).
  { change (whitespace_tokens (toLowerCase " zzz")) with ["zzz"] in Hc.
    inversion Hc as [|? ? ? _ Hc'|? ? ? _ Hc']; subst;
      inversion Hc'; subst; auto. }
  destruct Hm as [-> | ->]; vm_compute in Hs; discriminate.
Qed.

(** C2 (amended: the query has no leading or trailing white space, as the
    handler passes it after [trim()]).  For every such query with at least
    one white-space-delimited token and every corpus chunk, the search
    gives the chunk the score matched / total, where total is the number
    of query tokens and a token is matched exactly when some chunk token
    contains it or is contained in it, all strings lowercased. *)
Theorem fallback_score_trimmed_query (query chunk : string) :
  trim query = query ->
  whitespace_tokens query <> [] ->
  In chunk FALLBACK_CORPUS ->
  In (mkMatch chunk (score_of (split_ws (toLowerCase query)) chunk)) (scores query)
  /\ score_is_matched_ratio query chunk.
Proof.
  intros Htrim Htok Hin. split.
  { unfold scores, scores_on.
    apply (in_map (fun txt => mkMatch txt
                     (score_of (split_ws (toLowerCase query)) txt))), Hin. }
  assert (Hq : trim query <> EmptyString).
  { rewrite Htrim. intros ->. by apply Htok. }
  assert (Hc : trim chunk = chunk /\ trim chunk <> EmptyString).
  { simpl in Hin. repeat (destruct Hin as [<- | Hin]; [by vm_compute|]). done. }
  destruct Hc as [Hc1 Hc2].
  pose proof (score_of_trimmed query chunk Hq Hc2) as H.
  by rewrite Htrim, Hc1 in H.
Qed.

Lemma fallback_score_trimmed_query_witness :
  score_is_matched_ratio "medication adherence diabetes" first_chunk.
Proof.
  apply (fallback_score_trimmed_query "medication adherence diabetes" first_chunk).
  - reflexivity.
  - vm_compute. discriminate.
  - simpl. by left.
Defined.

(** C3.  For every query the result of the fallback search has at most
    three matches, every one with a score above 0, and is ranked: each
    match is the entry of a corpus ordinal, and along the result the score
    descends, equal scores standing in ascending ordinal order. *)
Theorem searchWithFallback_ranked (query : string) :
  let found := searchWithFallback query in
  (length found <= 3)%nat
  /\ List.Forall (fun m => (0 < score m)%Q) found
  /\ exists ranked : list (nat * SearchMatch),
       List.map snd ranked = found
       /\ List.Forall (fun p => scores query !! fst p = Some (snd p)
                                /\ FALLBACK_CORPUS !! fst p = Some (text (snd p)))
                      ranked
       /\ StronglySorted ranked_before ranked.
Proof. apply searchWithFallback_on_ranked. Qed.

(** C7, as stated, fails: the empty query is split into one term, the
    empty string, and that term matches: the search returns matches. *)
Lemma empty_query_has_one_term :
  split_ws (toLowerCase "") = [""]
  /\ split_ws (toLowerCase "") <> []
  /\ List.filter (term_hits (split_ws (toLowerCase first_chunk)))
                 (split_ws (toLowerCase "")) = [""]
  /\ length (searchWithFallback "") = 3%nat.
Proof. repeat split; try reflexivity. discriminate. Qed.

(** The tokens of a string are not empty. *)
Lemma whitespace_tokens_not_empty (s : string) :
  List.Forall (fun tok => tok <> EmptyString) (whitespace_tokens s).
Proof.
  induction s as [|c r IH]; [constructor|]. rewrite whitespace_tokens_cons.
  destruct (is_space c); [exact IH|].
  destruct r as [|d r']; [by repeat constructor|].
  destruct (is_space d); [by constructor|].
  destruct (whitespace_tokens (String d r')) as [|tok toks];
    [by repeat constructor|].
  inversion IH; subst. by constructor.
Qed.

(** C7 (amended).  An empty or blank query is never tokenized by the
    fallback search.  When [q] is missing, empty or white space only (its
    [trim()] is empty), the handler answers 400 with the fixed message as
    soon as the limiter has admitted the request, and 429 otherwise; it
    neither searches nor calls a service.  Every query the handler does
    hand to the search is trimmed and not empty; tokenizing it yields at
    least one term and no empty term, the white-space-delimited tokens of
    the lowercased query. *)
Theorem empty_query_rejected_before_search :
  (forall env w now headers rl (oq : option string),
     (forall query, oq = Some query -> trim query = EmptyString) ->
     let r := GET env w now (mkFaqRequest headers oq) rl in
     ((RateLimit.isAllowed now (clientIp headers) rl).1 = true ->
      r.1.1 = mkResponse 400 None (JError QUERY_REQUIRED))
     /\ ((RateLimit.isAllowed now (clientIp headers) rl).1 = false ->
         r.1.1 = too_many_requests)
     /\ r.2 = [])
  /\ (forall env w now headers rl query,
        trim query <> EmptyString ->
        (RateLimit.isAllowed now (clientIp headers) rl).1 = true ->
        let terms := split_ws (toLowerCase (trim query)) in
        (GET env w now (mkFaqRequest headers (Some query)) rl).2
        = fst (handleFAQ env w (new_FAQSearchService env w) (trim query))
        /\ terms <> []
        /\ List.Forall (fun term => term <> EmptyString) terms
        /\ terms = whitespace_tokens (toLowerCase (trim query))).
Proof.
  split.
  - intros env w now headers rl oq Hblank r. subst r.
    unfold GET. cbn [faq_headers q].
    destruct (RateLimit.isAllowed now (clientIp headers) rl) as [[] rl1];
      simpl negb; cbv iota; cbn [fst snd].
    + destruct oq as [query|]; [|by repeat split].
      rewrite (Hblank query eq_refl).
      change (jslength EmptyString =? 0) with true. rewrite orb_true_r.
      by repeat split.
    + by repeat split.
  - intros env w now headers rl query Hne Hok terms.
    split.
    { unfold GET. cbn [faq_headers q].
      destruct (RateLimit.isAllowed now (clientIp headers) rl) as [ok rl1].
      simpl in Hok. subst ok. cbn [negb].
      assert (Hlen : (jslength (trim query) =? 0) = false).
      { unfold jslength. destruct (trim query); [done | simpl; lia]. }
      rewrite Hlen.
      destruct query as [|c0 r0]; [by destruct Hne|].
      cbn [truthy negb orb].
      destruct (handleFAQ _ _ _ _) as [made [[? ?]|]]; done. }
    assert (Htok : terms = whitespace_tokens (toLowerCase (trim query))).
    { subst terms. rewrite toLowerCase_trim. apply split_ws_trim.
      rewrite <- toLowerCase_trim. intros E. by apply toLowerCase_empty in E. }
    split; [apply split_from_nonempty|]. split; [|done].
    rewrite Htok. apply whitespace_tokens_not_empty.
Qed.

Lemma empty_query_rejected_before_search_witness :
  let tab_and_space := String "009"%char " " in
  (GET env_with_keys world_up 0
       (mkFaqRequest (mkHeaders None None) (Some tab_and_space))
       RateLimit.rateLimiter).1.1
  = mkResponse 400 None (JError QUERY_REQUIRED).
Proof.
  intros tab_and_space.
  destruct (proj1 empty_query_rejected_before_search env_with_keys world_up 0
              (mkHeaders None None) RateLimit.rateLimiter (Some tab_and_space))
    as [H _].
  - intros query [= <-]. reflexivity.
  - apply H. reflexivity.
Defined.

(** C8.  In fallback mode, the query ["zzxxyy nonexistent"] finds nothing
    in the five-chunk corpus, and the answer synthesized from no match is
    the fixed text that no specific information is at hand and that a
    healthcare professional should be consulted; no service is called. *)
Theorem nonexistent_query_disclaimer (env : Env) (w : World) (s : FAQSearchService) :
  useFallback s = true ->
  length FALLBACK_CORPUS = 5%nat
  /\ searchWithFallback "zzxxyy nonexistent" = []
  /\ (forall query, synthesizeAnswer w s query [] = ret NO_INFORMATION)
  /\ handleFAQ env w s "zzxxyy nonexistent" = ret (s, mkFAQ NO_INFORMATION [])
  /\ NO_INFORMATION
     = "I don't have specific information about that topic. Please consult with a healthcare professional for medical guidance.".
Proof.
  intros Hf. split; [reflexivity|]. split; [by vm_compute|].
  split; [reflexivity|]. split; [|reflexivity].
  unfold handleFAQ, search. rewrite Hf.
  replace (searchWithFallback "zzxxyy nonexistent") with (@nil SearchMatch)
    by (by vm_compute).
  reflexivity.
Qed.

Lemma nonexistent_query_disclaimer_witness :
  handleFAQ env_with_keys world_up (mkService false false true) "zzxxyy nonexistent"
  = ret (mkService false false true, mkFAQ NO_INFORMATION []).
Proof.
  destruct (nonexistent_query_disclaimer env_with_keys world_up
              (mkService false false true)) as (_ & _ & _ & H & _).
  - reflexivity.
  - exact H.
Defined.

End FallbackClaims.

(** ** The search service and the handlers *)

Section ServiceClaims.
Import Faq Io Service Handlers RateLimit QueryHistory Scenario.

(** Once the flag is set, a search is the fallback search: no service is
    called and the service object stays as it is. *)
Lemma search_in_fallback (env : Env) (w : World) (s : FAQSearchService)
      (query : string) :
  useFallback s = true -> search env w s query = ret (s, searchWithFallback query).
Proof. intros H. unfold search. by rewrite H. Qed.

(** The handler works on a service object of its own: what it answers and
    which services it calls does not depend on the requests before, once
    the limiter has admitted the request. *)
Lemma GET_service_per_request (env : Env) (w : World) (now now' : Z)
      (request : FaqRequest) (rl rl' : RateLimiter) :
  (isAllowed now (clientIp (faq_headers request)) rl).1 = true ->
  (isAllowed now' (clientIp (faq_headers request)) rl').1 = true ->
  (GET env w now request rl).1.1 = (GET env w now' request rl').1.1
  /\ (GET env w now request rl).2 = (GET env w now' request rl').2.
Proof.
  unfold GET. intros H1 H2.
  destruct (isAllowed now _ rl) as [b1 r1], (isAllowed now' _ rl') as [b2 r2].
  simpl in H1, H2. subst. simpl negb. cbv iota.
  destruct (q request) as [query|]; [|done].
  destruct (_ || _); [done|].
  destruct (handleFAQ _ _ _ _) as [made [[? ?]|]]; done.
Qed.

(** C1, as stated, fails.  Both keys are set.  The first request meets a
    failing embedding service, falls back and answers from the corpus.
    The second request, served by the same process with the services
    healthy again, sends the query for embedding, queries the index and
    answers from the vector path. *)
Lemma downgrade_not_kept_across_requests :
  let first := GET env_with_keys world_down 0 (faq_request "medication") rateLimiter in
  let second := GET env_with_keys world_up 1 (faq_request "medication") first.1.2 in
  first.2 = [CallEmbeddings "medication"]
  /\ (exists a, body first.1.1 = JFaq (mkFAQ a (searchWithFallback "medication")))
  /\ attempts_vector second.2 = true
  /\ body second.1.1
     = JFaq (mkFAQ "Generated." [mkMatch "Vector answer." (9 # 10)]).
Proof.
  vm_compute. split; [reflexivity|]. split; [by eexists|].
  split; reflexivity.
Qed.

(** An admitted request with a query that is not blank is answered by
    [handleFAQ] on a service object constructed for it. *)
Lemma GET_constructs_service (env : Env) (w : World) (now : Z)
      (request : FaqRequest) (rl : RateLimiter) (query : string) :
  (isAllowed now (clientIp (faq_headers request)) rl).1 = true ->
  q request = Some query ->
  trim query <> EmptyString ->
  (GET env w now request rl).2
  = fst (handleFAQ env w (new_FAQSearchService env w) (trim query)).
Proof.
  intros Hok Hq Hne. unfold GET.
  destruct (isAllowed now _ rl) as [b rl1]. simpl in Hok. subst b.
  rewrite Hq. cbn [negb].
  assert (Hlen : (jslength (trim query) =? 0) = false).
  { unfold jslength. destruct (trim query); [done | simpl; lia]. }
  rewrite Hlen.
  destruct query as [|c0 r0]; [by destruct Hne|].
  cbn [truthy negb orb].
  destruct (handleFAQ _ _ _ _) as [made [[? ?]|]]; done.
Qed.

(** C1 (amended: the downgrade lasts as long as the service object, which
    the handler constructs for each request).  When a failure of the
    embedding or of the index query makes [search] fall back, the flag of
    that service object is set and the result is the fallback result;
    every later [search] on the object, in whatever state the external
    services are, is the fallback search, calls no service and leaves the
    flag set.  The handler serves each admitted request with a service
    object of its own, whose flag is unset when both keys are present and
    the clients can be constructed. *)
Theorem useFallback_one_way (env : Env) (w : World) (s : FAQSearchService)
        (query : string) :
  useFallback s = false ->
  snd (searchWithPinecone env w s query) = None ->
  (snd (search env w s query) = Some (set_useFallback s, searchWithFallback query)
   /\ useFallback (set_useFallback s) = true
   /\ forall env' w' query',
        search env' w' (set_useFallback s) query'
        = ret (set_useFallback s, searchWithFallback query')
        /\ attempts_vector (fst (search env' w' (set_useFallback s) query')) = false)
  /\ forall env' w' now request rl query',
       (isAllowed now (clientIp (faq_headers request)) rl).1 = true ->
       q request = Some query' ->
       trim query' <> EmptyString ->
       (GET env' w' now request rl).2
       = fst (handleFAQ env' w' (new_FAQSearchService env' w') (trim query'))
       /\ (truthy (PINECONE_API_KEY env') && truthy (OPENAI_API_KEY env') = true ->
           new_Pinecone_throws w' = false ->
           new_OpenAI_throws w' = false ->
           new_FAQSearchService env' w' = mkService true true false).
Proof.
  intros Hf Hfail. split; [split; [|split; [done|]]|].
  - unfold search. rewrite Hf. unfold bind, try_catch.
    destruct (searchWithPinecone env w s query) as [c [ms|]]; [done|].
    reflexivity.
  - intros env' w' query'. by rewrite search_in_fallback.
  - intros env' w' now request rl query' Hok Hq Hne. split.
    + by apply GET_constructs_service.
    + intros Hk Hp Ho. unfold new_FAQSearchService. by rewrite Hk, Hp, Ho.
Qed.

Lemma useFallback_one_way_witness :
  snd (search env_with_keys world_down (mkService true true false) "medication")
  = Some (mkService true true true, searchWithFallback "medication")
  /\ search env_with_keys world_up (mkService true true true) "medication"
     = ret (mkService true true true, searchWithFallback "medication").
Proof.
  destruct (useFallback_one_way env_with_keys world_down
              (mkService true true false) "medication") as ((H1 & _ & H3) & _).
  - reflexivity.
  - reflexivity.
  - split; [exact H1 | exact (proj1 (H3 env_with_keys world_up "medication"))].
Defined.

(** C5, as stated, fails.  With an OpenAI client and the flag unset, the
    answer for a single match is what the generative call returns: the
    call is made and its content, not the text of the match, is the
    answer. *)
Lemma single_match_generated :
  let found := [mkMatch "Only match." 1] in
  let r := synthesizeAnswer world_up (mkService true true false) "what" found in
  snd r = Some "Generated."
  /\ snd r <> Some (text (mkMatch "Only match." 1))
  /\ exists prompt, fst r = [CallChat prompt].
Proof.
  vm_compute. split; [reflexivity|]. split; [discriminate | by eexists].
Qed.

(** C5 (amended).  For every query and every sequence of exactly one
    match: when the service has no OpenAI client or its flag is set, the
    synthesizer returns the text of that match as it is, with no suffix and
    without a generative call; otherwise it makes the generative call, and
    returns the text of the match as it is when the call fails, and the
    generated content (or the fixed text for a missing content) when the
    call succeeds. *)
Theorem synthesizeAnswer_single_match (w : World) (s : FAQSearchService)
        (query : string) (m : SearchMatch) :
  let generative := openai s && negb (useFallback s) in
  let prompt := prompt_of query (text m) in
  (generative = false -> synthesizeAnswer w s query [m] = ret (text m))
  /\ (generative = true ->
      chat_completions_create w prompt = None ->
      synthesizeAnswer w s query [m] = ([CallChat prompt], Some (text m)))
  /\ (forall content,
        generative = true ->
        chat_completions_create w prompt = Some content ->
        synthesizeAnswer w s query [m]
        = ([CallChat prompt],
           Some (if truthy content then default EmptyString content
                 else "Unable to generate response."))).
Proof.
  intros generative prompt. subst generative prompt.
  unfold synthesizeAnswer. cbn [List.map join simple_synthesis].
  destruct (openai s && negb (useFallback s)).
  - split; [done|]. split.
    + intros _ H. by rewrite H.
    + intros content _ H. rewrite H. unfold call, bind, try_catch, ret.
      cbn [app]. unfold or_else.
      destruct (truthy content) eqn:E; [|reflexivity].
      destruct content as [c|]; [reflexivity | discriminate].
  - split; [done|]. split; [done|]. by intros.
Qed.

Lemma synthesizeAnswer_single_match_witness :
  synthesizeAnswer world_up (mkService false false true) "what"
                   [mkMatch "Only match." 1]
  = ret "Only match.".
Proof.
  destruct (synthesizeAnswer_single_match world_up (mkService false false true)
              "what" (mkMatch "Only match." 1)) as [H _].
  apply H. reflexivity.
Defined.

(** The handler answers 429 exactly when the limiter denies. *)
Lemma POST_429_iff (now idNow tsNow : Z) (request : InteractionRequest)
      (sh : Shared) :
  status (POST now idNow tsNow request sh).1 = 429
  <-> (isAllowed now (clientIp (int_headers request)) (limiter sh)).1 = false.
Proof.
  unfold POST.
  destruct (isAllowed _ _ _) as [[] rl1]; simpl; [|done].
  destruct (int_body request) as [|fa fb]; simpl; [done|].
  destruct (parse_medication fa), (parse_medication fb); simpl; try done.
  destruct (String.eqb _ _); done.
Qed.

(** C9.  When the interactions handler answers 429, the limiter had
    denied the request, and the shared state after the request is the
    shared state before it: the entry of the client in the limiter keeps
    its count and its reset time, and the history is not modified. *)
Theorem POST_rate_limited_no_mutation (now idNow tsNow : Z)
        (request : InteractionRequest) (sh : Shared) :
  status (POST now idNow tsNow request sh).1 = 429 ->
  let ip := clientIp (int_headers request) in
  isAllowed now ip (limiter sh) = (false, limiter sh)
  /\ (POST now idNow tsNow request sh).2 = sh
  /\ requests (limiter (POST now idNow tsNow request sh).2) !! ip
     = requests (limiter sh) !! ip
  /\ getRecentQueries (historyStore (POST now idNow tsNow request sh).2)
     = getRecentQueries (historyStore sh).
Proof.
  intros H ip. apply POST_429_iff in H. apply isAllowed_denied in H.
  fold ip in H. split; [done|].
  assert (Hsh : (POST now idNow tsNow request sh).2 = sh).
  { unfold POST. fold ip. rewrite H. simpl. by destruct sh. }
  by rewrite Hsh.
Qed.

Lemma POST_rate_limited_no_mutation_witness :
  let request := mkInteractionRequest (mkHeaders (Some "203.0.113.7") None)
                   (Parsed (Some "warfarin") (Some "ibuprofen")) in
  let sh := mkShared (calls [0] "203.0.113.7" (create 60000 1)).2 [] in
  status (POST 5 5 5 request sh).1 = 429 /\ (POST 5 5 5 request sh).2 = sh.
Proof.
  intros request sh.
  assert (H : status (POST 5 5 5 request sh).1 = 429) by reflexivity.
  split; [exact H|].
  exact (proj1 (proj2 (POST_rate_limited_no_mutation 5 5 5 request sh H))).
Defined.

End ServiceClaims.


(** ** The sweep of the limiter *)

Section CleanupFacts.
Import RateLimit.

(** [cleanup] deletes expired entries only: a later [isAllowed] or
    [getRemaining] answers as it would have without the sweep. *)
Lemma cleanup_lookup (t : Z) (k : string) (rl : RateLimiter) :
  requests (cleanup t rl) !! k
  = match requests rl !! k with
    | Some e => if resetTime e <? t then None else Some e
    | None => None
    end.
Proof.
  unfold cleanup. simpl. rewrite map_lookup_filter.
  destruct (requests rl !! k) as [e|]; simpl; [|done].
  destruct (Z.ltb_spec (resetTime e) t) as [Hlt|Hge].
  - rewrite option_guard_False; [done | tauto].
  - rewrite option_guard_True; [done | lia].
Qed.

Lemma isAllowed_after_cleanup (t now : Z) (k : string) (rl : RateLimiter) :
  t <= now ->
  (isAllowed now k (cleanup t rl)).1 = (isAllowed now k rl).1
  /\ getRemaining now k (cleanup t rl) = getRemaining now k rl.
Proof.
  intros Hle. unfold isAllowed, getRemaining. rewrite cleanup_lookup.
  destruct (requests rl !! k) as [e|]; [|done].
  destruct (Z.ltb_spec (resetTime e) t) as [Hlt|Hge].
  - simpl. destruct (Z.ltb_spec (resetTime e) now); [done | lia].
  - simpl. destruct (resetTime e <? now); [done|].
    by destruct (maxRequests rl <=? count e).
Qed.

End CleanupFacts.

(** ** Cases of the repository's test suite, run on the embedding *)

Section TestSuite.
Import RateLimit QueryHistory Interactions Faq Io Service Handlers Scenario.

Example test_block_after_limit :
  (calls [0; 1; 2; 3] "user1" (create 1000 3)).1 = [true; true; true; false].
Proof. reflexivity. Qed.

Example test_users_independent :
  (isAllowed 4 "user2" (calls [0; 1; 2; 3] "user1" (create 1000 3)).2).1 = true.
Proof. reflexivity. Qed.

Example test_remaining_default :
  getRemaining 1 "test" (isAllowed 0 "test" rateLimiter).2 = 99.
Proof. reflexivity. Qed.

Example test_full_match_ranks_first :
  hd_error (searchWithFallback "medication adherence diabetes")
  = Some (mkMatch first_chunk (3 # 3)).
Proof. reflexivity. Qed.

Example test_no_matches : searchWithFallback "zzxxyy nonexistent terms" = [].
Proof. reflexivity. Qed.

Example test_interaction_case_and_space :
  option_map rule_reason (findInteraction "  Warfarin " "IBUPROFEN")
  = Some "increased bleeding risk".
Proof. reflexivity. Qed.

Example test_post_records_query :
  let request := mkInteractionRequest (mkHeaders None None)
                   (Parsed (Some "  warfarin  ") (Some "ibuprofen")) in
  let r := POST 0 7 8 request (mkShared rateLimiter empty) in
  status r.1 = 200
  /\ historyStore r.2
     = [mkItem "7" "warfarin" "ibuprofen" true "increased bleeding risk" 8].
Proof. split; reflexivity. Qed.

End TestSuite.

(** * Further properties of the code *)

(** ** The limiter: invariant, remaining quota, sweep *)

Section LimiterExtras.
Import RateLimit LimiterRun.

Lemma counts_in_range_isAllowed (now : Z) (k : string) (rl : RateLimiter) :
  counts_in_range rl -> counts_in_range (isAllowed now k rl).2.
Proof.
  intros H k' e'. unfold isAllowed.
  destruct (absent_or_expired now (requests rl !! k)); simpl.
  { rewrite lookup_insert. case_decide; [|apply H].
    intros [= <-]. simpl. lia. }
  destruct (requests rl !! k) as [e|] eqn:E; [|apply H].
  destruct (Z.leb_spec (maxRequests rl) (count e)); [apply H|]. simpl.
  rewrite lookup_insert. case_decide; [|apply H].
  intros [= <-]. simpl. specialize (H k e E). lia.
Qed.

Lemma counts_in_range_cleanup (t : Z) (rl : RateLimiter) :
  counts_in_range rl -> counts_in_range (cleanup t rl).
Proof.
  intros H k e. rewrite cleanup_lookup.
  destruct (requests rl !! k) as [e0|] eqn:E; [|done].
  destruct (resetTime e0 <? t); [done|]. intros [= <-]. exact (H k e0 E).
Qed.

Lemma step_maxRequests (rl : RateLimiter) (e : Event) :
  maxRequests (step rl e) = maxRequests rl.
Proof. destruct e; simpl; [apply isAllowed_maxRequests | done]. Qed.

Lemma counts_in_range_run (events : list Event) : forall rl : RateLimiter,
  counts_in_range rl ->
  counts_in_range (run events rl)
  /\ maxRequests (run events rl) = maxRequests rl.
Proof.
  induction events as [|e events IH]; intros rl H; [done|].
  unfold run in *. simpl.
  destruct (IH (step rl e)) as [H1 H2].
  { destruct e; simpl;
      [by apply counts_in_range_isAllowed | by apply counts_in_range_cleanup]. }
  split; [done|]. by rewrite H2, step_maxRequests.
Qed.

(** X1.  Whatever calls of [isAllowed] and runs of [cleanup] a new limiter
    goes through, every stored count stays between 1 and the capacity (1
    for a capacity below 1); with a capacity that is not negative,
    [getRemaining] then always lies between 0 and the capacity. *)
Theorem limiter_counts_bounded (windowMs0 maxRequests0 : Z) (events : list Event) :
  let rl := run events (create windowMs0 maxRequests0) in
  counts_in_range rl
  /\ (0 <= maxRequests0 ->
      forall now k, 0 <= getRemaining now k rl <= maxRequests0).
Proof.
  intros rl.
  destruct (counts_in_range_run events (create windowMs0 maxRequests0)) as [H Hm].
  { intros k e. unfold create. simpl. by rewrite lookup_empty. }
  fold rl in H, Hm. simpl in Hm. split; [done|].
  intros Hc now k. unfold getRemaining. rewrite Hm.
  destruct (absent_or_expired now (requests rl !! k)); [lia|].
  destruct (requests rl !! k) as [e|] eqn:E; [|lia].
  specialize (H k e E). lia.
Qed.

Lemma limiter_counts_bounded_witness :
  0 <= getRemaining 5 "a"
         (run [Allowed 0 "a"; Allowed 1 "a"; Sweep 2; Allowed 3 "a"; Allowed 4 "a"]
              (create 1000 3)) <= 3.
Proof.
  destruct (limiter_counts_bounded 1000 3
              [Allowed 0 "a"; Allowed 1 "a"; Sweep 2; Allowed 3 "a"; Allowed 4 "a"])
    as [_ H].
  apply H. lia.
Defined.

(** X2.  [getRemaining] and [isAllowed] fit together: a positive remainder
    means that a call at that moment is admitted; a denied call means that
    the remainder is 0; and a call admitted inside a running window lowers
    the remainder by exactly one. *)
Theorem getRemaining_tracks_isAllowed (now : Z) (k : string) (rl : RateLimiter) :
  (0 < getRemaining now k rl -> (isAllowed now k rl).1 = true)
  /\ ((isAllowed now k rl).1 = false -> getRemaining now k rl = 0)
  /\ (absent_or_expired now (requests rl !! k) = false ->
      (isAllowed now k rl).1 = true ->
      getRemaining now k (isAllowed now k rl).2 = getRemaining now k rl - 1).
Proof.
  unfold getRemaining, isAllowed.
  destruct (absent_or_expired now (requests rl !! k)) eqn:Ha; simpl.
  { repeat split; done. }
  destruct (requests rl !! k) as [e|] eqn:E; [|done].
  simpl in Ha.
  destruct (Z.leb_spec (maxRequests rl) (count e)); simpl.
  - repeat split; try done; lia.
  - split; [done|]. split; [done|]. intros _ _.
    rewrite lookup_insert_eq. simpl. rewrite Ha. lia.
Qed.

Lemma getRemaining_tracks_isAllowed_witness :
  getRemaining 1 "a" (isAllowed 1 "a" (isAllowed 0 "a" (create 1000 3)).2).2 = 1.
Proof.
  destruct (getRemaining_tracks_isAllowed 1 "a" (isAllowed 0 "a" (create 1000 3)).2)
    as (_ & _ & H).
  rewrite H; reflexivity.
Defined.

Lemma admitted_replicate (a b : nat) :
  admitted (replicate a true ++ replicate b false)%list = a.
Proof.
  unfold admitted. induction a as [|a IH]; simpl.
  - induction b as [|b IHb]; simpl; done.
  - by rewrite IH.
Qed.

(** Inside a running window the answers are a run of admissions, as long as
    the count is below the capacity, followed by denials only. *)
Lemma calls_answers_in_window (ts : list Z) : forall k rl c R,
  requests rl !! k = Some (mkEntry c R) ->
  Forall (fun t => t <= R) ts ->
  let n := Z.to_nat (maxRequests rl - c) in
  (calls ts k rl).1
  = (replicate (Nat.min n (length ts)) true ++ replicate (length ts - n) false)%list.
Proof.
  induction ts as [|t ts IH]; intros k rl c R He Hts n.
  { simpl. by rewrite Nat.min_0_r. }
  inversion Hts as [|? ? Ht Hts']; subst. simpl.
  unfold isAllowed. rewrite He. simpl.
  destruct (Z.ltb_spec R t) as [?|_]; [lia|].
  destruct (Z.leb_spec (maxRequests rl) c) as [Hfull|Hroom].
  - specialize (IH k rl c R He Hts').
    destruct (calls ts k rl) as [bs r2]. simpl in *. rewrite IH.
    subst n. replace (Z.to_nat (maxRequests rl - c)) with 0%nat by lia.
    simpl. by rewrite Nat.sub_0_r.
  - set (rl1 := with_requests rl _).
    assert (He1 : requests rl1 !! k = Some (mkEntry (c + 1) R)).
    { subst rl1. simpl. by rewrite lookup_insert_eq. }
    specialize (IH k rl1 _ R He1 Hts').
    destruct (calls ts k rl1) as [bs r2]. simpl in *. rewrite IH.
    subst n. replace (Z.to_nat (maxRequests rl - c))
      with (S (Z.to_nat (maxRequests rl - (c + 1)))) by lia.
    reflexivity.
Qed.

(** X3.  Of [n] calls a client makes inside one window, starting without
    a live entry, the limiter admits [min n maxRequests], and exactly one
    when the capacity is below 1. *)
Theorem admitted_in_one_window (rl : RateLimiter) (k : string) (t0 : Z)
        (ts : list Z) :
  absent_or_expired t0 (requests rl !! k) = true ->
  Forall (fun t => t <= t0 + windowMs rl) ts ->
  admitted (calls (t0 :: ts) k rl).1
  = Nat.min (S (length ts)) (Z.to_nat (Z.max 1 (maxRequests rl))).
Proof.
  intros Hdead Hts.
  set (rl0 := with_requests rl
                (<[k := mkEntry 1 (t0 + windowMs rl)]> (requests rl))).
  assert (Hcalls : (calls (t0 :: ts) k rl).1 = true :: (calls ts k rl0).1).
  { cbn [calls]. unfold isAllowed. rewrite Hdead. fold rl0.
    by destruct (calls ts k rl0). }
  rewrite Hcalls.
  assert (He : requests rl0 !! k = Some (mkEntry 1 (t0 + windowMs rl))).
  { subst rl0. simpl. by rewrite lookup_insert_eq. }
  rewrite (calls_answers_in_window ts k rl0 _ _ He Hts).
  change (maxRequests rl0) with (maxRequests rl).
  change (admitted (true :: ?l)) with (S (admitted l)).
  rewrite admitted_replicate. lia.
Qed.

Lemma admitted_in_one_window_witness :
  admitted (calls [0; 1; 2; 3; 4; 5] "a" (create 1000 0)).1 = 1%nat
  /\ admitted (calls [0; 1; 2; 3; 4; 5] "a" (create 1000 4)).1 = 4%nat.
Proof.
  split.
  - rewrite (admitted_in_one_window (create 1000 0) "a" 0 [1; 2; 3; 4; 5]).
    + reflexivity.
    + reflexivity.
    + repeat constructor; simpl; lia.
  - rewrite (admitted_in_one_window (create 1000 4) "a" 0 [1; 2; 3; 4; 5]).
    + reflexivity.
    + reflexivity.
    + repeat constructor; simpl; lia.
Defined.

(** X4.  A run of [cleanup] is invisible to later requests: at any time
    not before the sweep, [isAllowed] gives the same answer and leaves the
    same entry for the key, and [getRemaining] gives the same number, as
    without the sweep. *)
Theorem cleanup_invisible_to_requests (t now : Z) (k : string) (rl : RateLimiter) :
  t <= now ->
  (isAllowed now k (cleanup t rl)).1 = (isAllowed now k rl).1
  /\ requests (isAllowed now k (cleanup t rl)).2 !! k
     = requests (isAllowed now k rl).2 !! k
  /\ getRemaining now k (cleanup t rl) = getRemaining now k rl.
Proof.
  intros Hle. unfold isAllowed, getRemaining.
  pose proof (cleanup_lookup t k rl) as Hl. rewrite Hl.
  destruct (requests rl !! k) as [e|] eqn:E.
  2: { simpl. by rewrite !lookup_insert_eq. }
  destruct (Z.ltb_spec (resetTime e) t) as [Hlt|Hge].
  - simpl. destruct (Z.ltb_spec (resetTime e) now); [|lia].
    simpl. by rewrite !lookup_insert_eq.
  - simpl. destruct (resetTime e <? now).
    + simpl. by rewrite !lookup_insert_eq.
    + change (maxRequests (cleanup t rl)) with (maxRequests rl).
      destruct (maxRequests rl <=? count e); cbn [fst snd].
      * by rewrite Hl, E.
      * simpl. by rewrite !lookup_insert_eq.
Qed.

Lemma cleanup_invisible_to_requests_witness :
  (isAllowed 2000 "a" (cleanup 1500 (isAllowed 0 "a" (create 1000 3)).2)).1 = true.
Proof.
  destruct (cleanup_invisible_to_requests 1500 2000 "a"
              (isAllowed 0 "a" (create 1000 3)).2) as [H _].
  - lia.
  - rewrite H. reflexivity.
Defined.

(** X5.  After [cleanup] no expired entry is left, every entry that has not
    expired is still there unchanged, and a second sweep at the same time
    changes nothing. *)
Theorem cleanup_removes_expired_only (t : Z) (rl : RateLimiter) :
  (forall k e, requests (cleanup t rl) !! k = Some e ->
               requests rl !! k = Some e /\ t <= resetTime e)
  /\ (forall k e, requests rl !! k = Some e -> t <= resetTime e ->
                  requests (cleanup t rl) !! k = Some e)
  /\ cleanup t (cleanup t rl) = cleanup t rl.
Proof.
  split; [|split].
  - intros k e. rewrite cleanup_lookup.
    destruct (requests rl !! k) as [e0|]; [|done].
    destruct (Z.ltb_spec (resetTime e0) t); [done|].
    intros [= <-]. split; [done | lia].
  - intros k e He Hle. rewrite cleanup_lookup, He.
    destruct (Z.ltb_spec (resetTime e) t); [lia | done].
  - unfold cleanup at 1 3. unfold with_requests. f_equal.
    apply map_eq. intros k.
    change (filter _ (requests (cleanup t rl)))
      with (requests (cleanup t (cleanup t rl))).
    change (filter _ (requests rl)) with (requests (cleanup t rl)).
    rewrite (cleanup_lookup t k (cleanup t rl)).
    destruct (requests (cleanup t rl) !! k) as [e|] eqn:E; [|done].
    rewrite cleanup_lookup in E.
    destruct (requests rl !! k) as [e0|]; [|done].
    destruct (Z.ltb_spec (resetTime e0) t) as [?|Hge]; [done|].
    injection E as <-. destruct (Z.ltb_spec (resetTime e0) t); [lia | done].
Qed.

Lemma cleanup_removes_expired_only_witness :
  requests (cleanup 500 (isAllowed 0 "a" (create 1000 3)).2) !! "a"
  = Some (mkEntry 1 1000).
Proof.
  destruct (cleanup_removes_expired_only 500 (isAllowed 0 "a" (create 1000 3)).2)
    as (_ & H & _).
  apply H; [reflexivity | simpl; lia].
Defined.

End LimiterExtras.

(** ** Strings: [trim] and [toLowerCase] *)

Section StringExtras.

Lemma lower_char_idem (c : ascii) : lower_char (lower_char c) = lower_char c.
Proof. destruct c as [[] [] [] [] [] [] [] []]; reflexivity. Qed.

Lemma toLowerCase_idem (s : string) : toLowerCase (toLowerCase s) = toLowerCase s.
Proof.
  induction s as [|c r IH]; simpl; [done|]. by rewrite lower_char_idem, IH.
Qed.

Lemma trimStart_trimEnd (s : string) :
  trimStart s = s -> trimStart (trimEnd s) = trimEnd s.
Proof.
  destruct s as [|c r]; [done|]. simpl trimStart at 1.
  destruct (is_space c) eqn:Hc.
  - intros H. exfalso.
    assert (Hlen : (String.length (trimStart r) <= String.length r)%nat).
    { clear. induction r as [|a r IH]; simpl; [lia|].
      destruct (is_space a); simpl; lia. }
    rewrite H in Hlen. simpl in Hlen. lia.
  - intros _. destruct (trimEnd_head c r Hc) as [r' ->]. simpl. by rewrite Hc.
Qed.

Lemma trimStart_idem (s : string) : trimStart (trimStart s) = trimStart s.
Proof.
  induction s as [|c r IH]; simpl; [done|].
  destruct (is_space c) eqn:Hc; [done|]. simpl. by rewrite Hc.
Qed.

Lemma trim_idem (s : string) : trim (trim s) = trim s.
Proof.
  unfold trim.
  rewrite (trimStart_trimEnd (trimStart s)) by apply trimStart_idem.
  apply trimEnd_idem.
Qed.

Lemma trimStart_length (s : string) :
  (String.length (trimStart s) <= String.length s)%nat.
Proof.
  induction s as [|c r IH]; simpl; [lia|]. destruct (is_space c); simpl; lia.
Qed.

Lemma trimEnd_length (s : string) :
  (String.length (trimEnd s) <= String.length s)%nat.
Proof.
  induction s as [|c r IH]; [simpl; lia|]. rewrite trimEnd_cons.
  destruct (trimEnd r) as [|a r'].
  - destruct (is_space c); simpl; lia.
  - simpl in *. lia.
Qed.

Lemma trim_length (s : string) : jslength (trim s) <= jslength s.
Proof.
  unfold jslength, trim.
  pose proof (trimEnd_length (trimStart s)). pose proof (trimStart_length s). lia.
Qed.

(** The comparison key of a name that went through [trim]. *)
Lemma trim_lower_trim (s : string) :
  trim (toLowerCase (trim s)) = toLowerCase (trim s).
Proof. by rewrite <- toLowerCase_trim, trim_idem. Qed.

End StringExtras.

(** ** The query history and its route *)

Section HistoryExtras.
Import QueryHistory Routes.

(** X6.  [addQuery] puts the new item in front and keeps at most ten: the
    length grows by one up to 10; below ten items nothing is lost; at ten
    items exactly the oldest, the last one, is dropped. *)
Theorem addQuery_capacity (c : AddCall) (h : QueryHistoryStore) :
  length (add c h) = Nat.min 10 (S (length h))
  /\ hd_error (getRecentQueries (add c h)) = Some (item_of c)
  /\ ((length h < 10)%nat -> add c h = item_of c :: h)
  /\ (length h = 10%nat -> add c h = item_of c :: removelast h).
Proof.
  rewrite add_firstn. unfold maxItems, getRecentQueries. split; [|split; [|split]].
  - rewrite length_firstn. simpl length. lia.
  - reflexivity.
  - intros Hlt. apply firstn_all2. simpl. lia.
  - intros Hten. simpl. f_equal.
    rewrite removelast_firstn_len, Hten. reflexivity.
Qed.

Lemma addQuery_capacity_witness :
  let c (n : Z) := mkAdd n n "a" "b" false "No known interaction found" in
  add (c 3) [item_of (c 2); item_of (c 1)]
  = [item_of (c 3); item_of (c 2); item_of (c 1)].
Proof.
  intros c.
  destruct (addQuery_capacity (c 3) [item_of (c 2); item_of (c 1)])
    as (_ & _ & H & _).
  apply H. simpl. lia.
Defined.

End HistoryExtras.

(** ** The interaction rules *)

Section InteractionExtras.
Import Interactions.

Lemma find_ext {A} (f g : A -> bool) (l : list A) :
  (forall x, f x = g x) -> List.find f l = List.find g l.
Proof.
  intros H. induction l as [|x l IH]; simpl; [done|]. by rewrite H, IH.
Qed.

(** X8.  The lookup does not depend on the order of the two names: the
    same rule is found, and [checkInteraction] gives the same risk, reason
    and advice, with the pair in the order given. *)
Theorem findInteraction_symmetric (a b : string) :
  findInteraction a b = findInteraction b a
  /\ isPotentiallyRisky (checkInteraction a b)
     = isPotentiallyRisky (checkInteraction b a)
  /\ reason (checkInteraction a b) = reason (checkInteraction b a)
  /\ advice (checkInteraction a b) = advice (checkInteraction b a)
  /\ pair (checkInteraction a b) = (a, b).
Proof.
  assert (H : findInteraction a b = findInteraction b a).
  { unfold findInteraction. apply find_ext. intros rule. apply orb_comm. }
  split; [done|]. unfold checkInteraction. rewrite H.
  destruct (findInteraction b a); repeat split.
Qed.

(** X9.  The lookup ignores letter case and surrounding white space of a
    name: lowercasing or trimming a name first finds the same rule. *)
Theorem findInteraction_normalizes (a b : string) :
  findInteraction (toLowerCase a) b = findInteraction a b
  /\ findInteraction (trim a) b = findInteraction a b
  /\ findInteraction a (toLowerCase b) = findInteraction a b
  /\ findInteraction a (trim b) = findInteraction a b.
Proof.
  unfold findInteraction.
  rewrite !toLowerCase_idem, !trim_lower_trim, !toLowerCase_trim.
  repeat split.
Qed.

End InteractionExtras.

(** ** The handlers *)

Section HandlerExtras.
Import Faq Io Service RateLimit QueryHistory Interactions Handlers Routes Scenario.

Lemma trim_blanks (n : nat) : trim (blanks n) = EmptyString.
Proof. unfold trim. induction n as [|n IH]; [done|]. simpl. exact IH. Qed.

(** A name that the schema lets through. *)
Lemma parse_medication_Some (field : option string) (a : string) :
  parse_medication field = Some a ->
  exists s, field = Some s /\ a = trim s /\ trim a = a /\ a <> EmptyString
            /\ 1 <= jslength a <= 100
            /\ forallb medication_char (list_ascii_of_string a) = true.
Proof.
  unfold parse_medication. destruct field as [s|]; [|done].
  destruct (_ && _) eqn:E; [|done]. intros [= <-].
  apply andb_true_iff in E as [E1 E2]. apply andb_true_iff in E1 as [E0 E1].
  apply Z.leb_le in E0, E1.
  exists s. split; [done|]. split; [done|]. split; [apply trim_idem|].
  unfold MEDICATION_NAME in E2.
  destruct (trim s) as [|c r] eqn:Et; [done|]. split; [done|]. split; [|done].
  pose proof (trim_length s) as Hl. rewrite Et in Hl.
  unfold jslength in *. simpl in *. lia.
Qed.

(** X10.  What the request schema lets through: a name that parses is the
    trimmed field, is not empty, has at most 100 characters and only
    letters, digits, white space, hyphens and dots; a missing field, the
    empty string and a string of blanks do not parse. *)
Theorem parse_medication_sound (field : option string) (a : string) :
  (parse_medication field = Some a ->
   exists s, field = Some s /\ a = trim s /\ trim a = a /\ a <> EmptyString
             /\ 1 <= jslength a <= 100
             /\ forallb medication_char (list_ascii_of_string a) = true)
  /\ parse_medication None = None
  /\ forall n, parse_medication (Some (blanks n)) = None.
Proof.
  split; [apply parse_medication_Some|]. split; [done|].
  intros n. unfold parse_medication. rewrite trim_blanks. simpl.
  by rewrite andb_false_r.
Qed.

Lemma parse_medication_sound_witness :
  exists s, Some "  Warfarin " = Some s /\ "Warfarin" = trim s.
Proof.
  destruct (proj1 (parse_medication_sound (Some "  Warfarin ") "Warfarin"))
    as (s & H1 & H2 & _).
  - reflexivity.
  - by exists s.
Defined.

(** X11.  The interactions handler and the shared state: every request,
    whatever the answer, passes the limiter exactly once; the answer is
    200, 400, 429 or 500; the history is written only by a 200 answer, and
    then its first item holds the parsed (trimmed) names, the risk and the
    reason of the answer, which the history route returns. *)
Theorem POST_effects (now idNow tsNow : Z) (request : InteractionRequest)
        (sh : Shared) :
  let r := POST now idNow tsNow request sh in
  limiter r.2 = (isAllowed now (clientIp (int_headers request)) (limiter sh)).2
  /\ (status r.1 = 200 \/ status r.1 = 400 \/ status r.1 = 429 \/ status r.1 = 500)
  /\ (status r.1 <> 200 -> historyStore r.2 = historyStore sh)
  /\ (status r.1 = 200 ->
      exists fa fb a b,
        int_body request = Parsed fa fb
        /\ parse_medication fa = Some a /\ parse_medication fb = Some b
        /\ body r.1 = JInteraction (checkInteraction a b)
        /\ history_body (history_GET (historyStore r.2)).1
           = JHistory
               (firstn 10
                  (mkItem (pretty idNow) a b
                     (Interactions.isPotentiallyRisky (checkInteraction a b))
                     (Interactions.reason (checkInteraction a b)) tsNow
                   :: historyStore sh))).
Proof.
  intros r. subst r. unfold POST.
  destruct (isAllowed now _ (limiter sh)) as [[] rl1]; simpl negb; cbv iota.
  2: { simpl. repeat split; auto. done. }
  destruct (int_body request) as [|fa fb] eqn:Eb.
  { simpl. repeat split; auto. done. }
  destruct (parse_medication fa) as [a|] eqn:Ea.
  2: { simpl. repeat split; auto. done. }
  destruct (parse_medication fb) as [b|] eqn:Eb'.
  2: { simpl. repeat split; auto. done. }
  destruct (String.eqb _ _).
  { simpl. repeat split; auto. done. }
  cbn [fst snd limiter historyStore status body].
  split; [done|]. split; [auto|]. split; [done|]. intros _.
  exists fa, fb, a, b. repeat split; try done.
  unfold history_GET, getRecentQueries. cbn [fst history_body]. f_equal.
  apply (add_firstn (mkAdd idNow tsNow a b _ _)).
Qed.

Lemma POST_effects_witness :
  let request := mkInteractionRequest (mkHeaders None None)
                   (Parsed (Some "warfarin") (Some "WARFARIN ")) in
  historyStore (POST 0 1 2 request (mkShared rateLimiter empty)).2 = empty.
Proof.
  intros request.
  destruct (POST_effects 0 1 2 request (mkShared rateLimiter empty))
    as (_ & _ & H & _).
  apply H. vm_compute. discriminate.
Defined.

(** X12.  The form of the page and the handler agree on what two different
    medications are: for fields whose trimmed values pass the schema, the
    form lets the submission through exactly when the handler, once the
    limiter admits the request, answers 200. *)
Theorem validateInputs_agrees_with_POST (fieldA fieldB : string)
        (now idNow tsNow : Z) (headers : Headers) (sh : Shared) (a b : string) :
  (isAllowed now (clientIp headers) (limiter sh)).1 = true ->
  parse_medication (Some (trim fieldA)) = Some a ->
  parse_medication (Some (trim fieldB)) = Some b ->
  validateInputs fieldA fieldB = None
  <-> status (POST now idNow tsNow
                (mkInteractionRequest headers (submitted_body fieldA fieldB)) sh).1
      = 200.
Proof.
  intros Hok Ha Hb.
  destruct (parse_medication_Some _ _ Ha) as (sa & [= <-] & Hta & _ & Hna & _).
  destruct (parse_medication_Some _ _ Hb) as (sb & [= <-] & Htb & _ & Hnb & _).
  rewrite trim_idem in Hta, Htb. subst a b.
  unfold POST, submitted_body. cbn [int_headers int_body].
  destruct (isAllowed now _ (limiter sh)) as [ok rl1]. simpl in Hok. subst ok.
  simpl negb. cbv iota. rewrite Ha, Hb, !trim_lower_trim.
  unfold validateInputs.
  destruct (trim fieldA) as [|ca ra] eqn:Ea; [done|].
  destruct (trim fieldB) as [|cb rb] eqn:Eb; [done|].
  cbn [truthy negb orb].
  destruct (String.eqb _ _); simpl; split; done.
Qed.

Lemma validateInputs_agrees_with_POST_witness :
  validateInputs " Warfarin" "warfarin " <> None.
Proof.
  intros H.
  apply (validateInputs_agrees_with_POST " Warfarin" "warfarin " 0 1 2
           (mkHeaders None None) (mkShared rateLimiter empty)
           "Warfarin" "warfarin") in H.
  - vm_compute in H. discriminate.
  - reflexivity.
  - reflexivity.
  - reflexivity.
Defined.

(** [search], [synthesizeAnswer] and [handleFAQ] catch what the services
    throw. *)
Lemma search_returns (env : Env) (w : World) (s : FAQSearchService) (query : string) :
  exists s' found,
    snd (search env w s query) = Some (s', found)
    /\ (s' = s \/ s' = set_useFallback s).
Proof.
  unfold search. destruct (useFallback s).
  - exists s, (searchWithFallback query). split; [done | by left].
  - unfold bind, try_catch.
    destruct (searchWithPinecone env w s query) as [c [ms|]].
    + exists s, ms. split; [done | by left].
    + exists (set_useFallback s), (searchWithFallback query).
      split; [done | by right].
Qed.

Lemma synthesizeAnswer_returns (w : World) (s : FAQSearchService) (query : string)
      (found : list SearchMatch) :
  exists a, snd (synthesizeAnswer w s query found) = Some a.
Proof.
  unfold synthesizeAnswer. destruct found as [|top rest]; [by eexists|].
  destruct (openai s && negb (useFallback s)); [|by eexists].
  unfold call, bind, try_catch.
  destruct (chat_completions_create w _); by eexists.
Qed.

Lemma handleFAQ_returns (env : Env) (w : World) (s : FAQSearchService)
      (query : string) :
  exists s' a found,
    snd (handleFAQ env w s query) = Some (s', mkFAQ a found)
    /\ (s' = s \/ s' = set_useFallback s).
Proof.
  unfold handleFAQ.
  destruct (search_returns env w s query) as (s' & found & Hs & Hor).
  destruct (search env w s query) as [c1 r1]. simpl in Hs. subst r1.
  cbn [bind fst snd].
  destruct (synthesizeAnswer_returns w s' query found) as (a & Ha).
  destruct (synthesizeAnswer w s' query found) as [c2 r2]. simpl in Ha. subst r2.
  simpl. by exists s', a, found.
Qed.

(** X13.  The FAQ handler and the limiter: every request passes the
    limiter exactly once, also one that is then answered 400; the answer is
    200, 400 or 429, a failing service never turns it into a 500; a denied
    request and a request without a usable [q] reach no external service. *)
Theorem GET_effects (env : Env) (w : World) (now : Z) (request : FaqRequest)
        (rl : RateLimiter) :
  let r := GET env w now request rl in
  r.1.2 = (isAllowed now (clientIp (faq_headers request)) rl).2
  /\ (status r.1.1 = 200 \/ status r.1.1 = 400 \/ status r.1.1 = 429)
  /\ (status r.1.1 = 429
      <-> (isAllowed now (clientIp (faq_headers request)) rl).1 = false)
  /\ (status r.1.1 <> 200 -> r.2 = []).
Proof.
  intros r. subst r. unfold GET.
  destruct (isAllowed now _ rl) as [[] rl1]; simpl negb; cbv iota.
  2: { simpl. repeat split; auto. }
  destruct (q request) as [query|].
  2: { simpl. repeat split; auto; done. }
  destruct (_ || _).
  { simpl. repeat split; auto; done. }
  destruct (handleFAQ_returns env w (new_FAQSearchService env w) (trim query))
    as (s' & a & found & H & _).
  destruct (handleFAQ _ _ _ _) as [made res]. simpl in H. subst res.
  simpl. repeat split; auto; done.
Qed.

Lemma GET_effects_witness :
  (GET env_with_keys world_up 0 (faq_request "   ") rateLimiter).2 = [].
Proof.
  destruct (GET_effects env_with_keys world_up 0 (faq_request "   ") rateLimiter)
    as (_ & _ & _ & H).
  apply H. vm_compute. discriminate.
Defined.

End HandlerExtras.

(** ** The search service *)

Section ServiceExtras.
Import Faq Io Service Scenario.

(** X14.  The constructor: the service starts on the vector path exactly
    when both keys are set and both clients can be constructed; otherwise it
    starts in fallback mode.  A service on the vector path has both
    clients. *)
Theorem new_FAQSearchService_modes (env : Env) (w : World) :
  let s := new_FAQSearchService env w in
  (useFallback s = false
   <-> truthy (PINECONE_API_KEY env) = true /\ truthy (OPENAI_API_KEY env) = true
       /\ new_Pinecone_throws w = false /\ new_OpenAI_throws w = false)
  /\ (useFallback s = false -> pinecone s = true /\ openai s = true).
Proof.
  unfold new_FAQSearchService.
  destruct (truthy (PINECONE_API_KEY env)), (truthy (OPENAI_API_KEY env)),
    (new_Pinecone_throws w), (new_OpenAI_throws w); simpl;
    (split; [split; [try done; intros _; repeat split
                    | intros (? & ? & ? & ?); done]
            | try done]).
Qed.

Lemma new_FAQSearchService_modes_witness :
  pinecone (new_FAQSearchService env_with_keys world_up) = true
  /\ openai (new_FAQSearchService env_with_keys world_up) = true.
Proof.
  destruct (new_FAQSearchService_modes env_with_keys world_up) as [_ H].
  apply H. reflexivity.
Defined.

(** The answer that needs no service. *)
Lemma synthesizeAnswer_simple (w : World) (s : FAQSearchService) (query : string)
      (found : list SearchMatch) :
  openai s && negb (useFallback s) = false ->
  synthesizeAnswer w s query found
  = ret match found with
        | [] => NO_INFORMATION
        | top :: rest => simple_synthesis top rest
        end.
Proof.
  intros H. unfold synthesizeAnswer. destruct found; [done|]. by rewrite H.
Qed.

(** X15.  A service in fallback mode, which is how it starts when a key is
    missing, answers without calling any external service, whatever their
    state: the matches are those of the fallback search, the answer is the
    fixed text for no match, the text of a single match, or the text of the
    top match followed by the fixed advice; the service stays as it is. *)
Theorem handleFAQ_in_fallback (env : Env) (w : World) (s : FAQSearchService)
        (query : string) :
  useFallback s = true ->
  handleFAQ env w s query
  = ret (s, mkFAQ match searchWithFallback query with
                  | [] => NO_INFORMATION
                  | [only] => text only
                  | top :: _ :: _ =>
                      text top
                      +:+ " For additional guidance, consult with a healthcare professional."
                  end
                  (searchWithFallback query)).
Proof.
  intros Hf. unfold handleFAQ. rewrite search_in_fallback by done.
  cbn [bind ret fst snd].
  rewrite synthesizeAnswer_simple by (rewrite Hf; apply andb_false_r).
  destruct (searchWithFallback query) as [|top [|second rest]]; reflexivity.
Qed.

Lemma handleFAQ_in_fallback_witness :
  fst (handleFAQ (mkEnv None (Some "sk-key") None) world_up
         (new_FAQSearchService (mkEnv None (Some "sk-key") None) world_up)
         "medication list") = [].
Proof.
  rewrite (handleFAQ_in_fallback (mkEnv None (Some "sk-key") None) world_up).
  - reflexivity.
  - reflexivity.
Defined.

(** X16.  [handleFAQ] always returns a response, whatever the services
    do: nothing they throw escapes.  The clients of the service stay as
    they are, and its flag is never unset: it is left alone or set. *)
Theorem handleFAQ_never_throws (env : Env) (w : World) (s : FAQSearchService)
        (query : string) :
  exists s' a found,
    snd (handleFAQ env w s query) = Some (s', mkFAQ a found)
    /\ pinecone s' = pinecone s /\ openai s' = openai s
    /\ (useFallback s = true -> useFallback s' = true)
    /\ (useFallback s' = false -> s' = s).
Proof.
  destruct (handleFAQ_returns env w s query) as (s' & a & found & H & Hor).
  exists s', a, found. split; [done|].
  destruct Hor as [-> | ->]; simpl; repeat split; try done.
Qed.

Lemma searchWithPinecone_texts (env : Env) (w : World) (s : FAQSearchService)
      (query : string) (ms : list SearchMatch) :
  snd (searchWithPinecone env w s query) = Some ms ->
  List.Forall (fun m => text m <> EmptyString) ms.
Proof.
  unfold searchWithPinecone.
  destruct (negb (pinecone s) || negb (openai s)); [done|].
  unfold call, bind, ret, throw.
  destruct (embeddings_create w query) as [[|e data]|]; try done.
  simpl. destruct (index_query w (indexName env) e) as [found|]; [|done].
  simpl. intros [= <-]. destruct found as [l|]; [|constructor].
  rewrite List.Forall_forall. intros m Hm. apply filter_In in Hm as [_ Hm].
  intros E. rewrite E in Hm. done.
Qed.

End ServiceExtras.

Section ServiceExtras2.
Import Faq Io Service Scenario.

Lemma corpus_texts_not_empty (txt : string) :
  In txt FALLBACK_CORPUS -> txt <> EmptyString.
Proof.
  simpl. intros H. repeat (destruct H as [<- | H]; [done|]). done.
Qed.

Lemma searchWithFallback_texts (query : string) (m : SearchMatch) :
  In m (searchWithFallback query) -> In (text m) FALLBACK_CORPUS.
Proof.
  intros Hm.
  destruct (searchWithFallback_on_ranked FALLBACK_CORPUS query)
    as (_ & _ & ranked & Hmap & Hall & _).
  fold (searchWithFallback query) in Hmap. rewrite <- Hmap in Hm.
  apply in_map_iff in Hm as (p & <- & Hp).
  rewrite List.Forall_forall in Hall. destruct (Hall p Hp) as [_ Hl].
  apply list_elem_of_In. by eapply list_elem_of_lookup_2.
Qed.

(** X17.  No match that [search] returns has an empty text, on the vector
    path (where matches without text are dropped) as on the fallback path
    (where every text is a chunk of the corpus). *)
Theorem search_texts_not_empty (env : Env) (w : World) (s : FAQSearchService)
        (query : string) (s' : FAQSearchService) (found : list SearchMatch) :
  snd (search env w s query) = Some (s', found) ->
  List.Forall (fun m => text m <> EmptyString) found.
Proof.
  assert (Hfb : List.Forall (fun m => text m <> EmptyString)
                            (searchWithFallback query)).
  { rewrite List.Forall_forall. intros m Hm.
    by apply corpus_texts_not_empty, searchWithFallback_texts with query. }
  unfold search. destruct (useFallback s).
  { simpl. by intros [= _ <-]. }
  unfold bind, try_catch.
  pose proof (searchWithPinecone_texts env w s query) as Hv.
  destruct (searchWithPinecone env w s query) as [c [ms|]]; simpl.
  - intros [= _ <-]. by apply Hv.
  - by intros [= _ <-].
Qed.

Lemma search_texts_not_empty_witness :
  List.Forall (fun m => text m <> EmptyString)
              [mkMatch "Vector answer." (9 # 10)].
Proof.
  apply (search_texts_not_empty env_with_keys world_up
           (mkService true true false) "medication" (mkService true true false)).
  reflexivity.
Defined.

(** X18.  With two or more matches: when the service has no OpenAI client
    or its flag is set, the answer is the text of the top match followed by
    the fixed advice, and no service is called; otherwise one generative
    call is made with the prompt built from the query and all match texts,
    and the answer is the generated content, the fixed text for a missing
    content, or, when the call fails, the text of the top match followed by
    the fixed advice. *)
Theorem synthesizeAnswer_several_matches (w : World) (s : FAQSearchService)
        (query : string) (top second : SearchMatch) (rest : list SearchMatch) :
  let found := top :: second :: rest in
  let generative := openai s && negb (useFallback s) in
  let prompt := prompt_of query (join (nl +:+ nl) (List.map text found)) in
  let advised :=
    text top +:+ " For additional guidance, consult with a healthcare professional." in
  (generative = false -> synthesizeAnswer w s query found = ret advised)
  /\ (generative = true ->
      chat_completions_create w prompt = None ->
      synthesizeAnswer w s query found = ([CallChat prompt], Some advised))
  /\ (forall content,
        generative = true ->
        chat_completions_create w prompt = Some content ->
        synthesizeAnswer w s query found
        = ([CallChat prompt],
           Some (if truthy content then default EmptyString content
                 else "Unable to generate response."))).
Proof.
  intros found generative prompt advised. subst found generative prompt advised.
  unfold synthesizeAnswer. cbn [simple_synthesis].
  destruct (openai s && negb (useFallback s)).
  - split; [done|]. split.
    + intros _ H. by rewrite H.
    + intros content _ H. rewrite H. unfold call, bind, try_catch, ret.
      cbn [app]. unfold or_else.
      destruct (truthy content) eqn:E; [|reflexivity].
      destruct content as [c|]; [reflexivity | discriminate].
  - split; [done|]. split; [done|]. by intros.
Qed.

Lemma synthesizeAnswer_several_matches_witness :
  synthesizeAnswer world_up (mkService true true true) "what"
    [mkMatch "First." 1; mkMatch "Second." 1]
  = ret "First. For additional guidance, consult with a healthcare professional.".
Proof.
  destruct (synthesizeAnswer_several_matches world_up (mkService true true true)
              "what" (mkMatch "First." 1) (mkMatch "Second." 1) []) as [H _].
  apply H. reflexivity.
Defined.

Lemma searchWithPinecone_calls (env : Env) (w : World) (s : FAQSearchService)
      (query : string) (c : Call) :
  In c (fst (searchWithPinecone env w s query)) -> is_vector_call c = true.
Proof.
  unfold searchWithPinecone.
  destruct (negb (pinecone s) || negb (openai s)); [done|].
  unfold call, bind, ret, throw.
  destruct (embeddings_create w query) as [[|e data]|]; simpl;
    try (intros [<-|[]]; done).
  destruct (index_query w (indexName env) e) as [found|]; simpl;
    intros [<-|[<-|[]]]; done.
Qed.

(** X19.  When the vector search of a request fails, the same request is
    answered from the fallback search and, although the OpenAI client is
    there, without a generative call: the only calls made are those of the
    failed vector search, the flag is set, and the answer is the fixed text,
    the single text, or the top text with the fixed advice. *)
Theorem handleFAQ_downgrade_skips_generation (env : Env) (w : World)
        (s : FAQSearchService) (query : string) :
  useFallback s = false ->
  snd (searchWithPinecone env w s query) = None ->
  handleFAQ env w s query
  = (fst (searchWithPinecone env w s query),
     Some (set_useFallback s,
           mkFAQ match searchWithFallback query with
                 | [] => NO_INFORMATION
                 | top :: rest => simple_synthesis top rest
                 end
                 (searchWithFallback query)))
  /\ forall prompt, ~ In (CallChat prompt) (fst (handleFAQ env w s query)).
Proof.
  intros Hf Hfail.
  assert (H : handleFAQ env w s query
              = (fst (searchWithPinecone env w s query),
                 Some (set_useFallback s,
                       mkFAQ match searchWithFallback query with
                             | [] => NO_INFORMATION
                             | top :: rest => simple_synthesis top rest
                             end
                             (searchWithFallback query)))).
  { unfold handleFAQ, search. rewrite Hf. unfold try_catch at 1.
    unfold bind at 2.
    destruct (searchWithPinecone env w s query) as [c r]. simpl in Hfail.
    subst r. cbn [ret bind fst snd].
    rewrite synthesizeAnswer_simple by apply andb_false_r.
    unfold bind, ret. by rewrite !app_nil_r. }
  split; [done|]. rewrite H. cbn [fst]. intros prompt Hin.
  by apply searchWithPinecone_calls in Hin.
Qed.

Lemma handleFAQ_downgrade_skips_generation_witness :
  fst (handleFAQ env_with_keys world_down (mkService true true false) "medication")
  = [CallEmbeddings "medication"].
Proof.
  destruct (handleFAQ_downgrade_skips_generation env_with_keys world_down
              (mkService true true false) "medication") as [H _].
  - reflexivity.
  - reflexivity.
  - rewrite H. reflexivity.
Defined.

End ServiceExtras2.

(** ** The fallback search: scores and ranking *)

Section FallbackExtras.
Import Faq.

Lemma ratio_facts (h n : nat) :
  (h <= n)%nat -> (1 <= n)%nat ->
  let r := (inject_Z (Z.of_nat h) / inject_Z (Z.of_nat n))%Q in
  (0 <= r)%Q /\ (r <= 1)%Q /\ ((r == 0)%Q <-> h = 0%nat) /\ ((r == 1)%Q <-> h = n).
Proof.
  intros Hle Hn r. subst r.
  destruct (Z.of_nat n) as [|p|p] eqn:En; [lia| |lia].
  unfold Qdiv, Qinv, Qmult, Qle, Qeq, inject_Z. simpl.
  assert (Hp : Z.pos p = Z.of_nat n) by done.
  repeat split; try lia.
Qed.

Lemma filter_length_zero {A} (f : A -> bool) (l : list A) :
  length (List.filter f l) = 0%nat <-> List.Forall (fun x => f x = false) l.
Proof.
  induction l as [|x l IH]; simpl; [by split; [constructor|]|].
  destruct (f x) eqn:E; simpl.
  - split; [done|]. intros H. inversion H; congruence.
  - rewrite IH. split; [by constructor | intros H; by inversion H].
Qed.

Lemma filter_length_all {A} (f : A -> bool) (l : list A) :
  length (List.filter f l) = length l <-> List.Forall (fun x => f x = true) l.
Proof.
  induction l as [|x l IH]; simpl; [by split; [constructor|]|].
  pose proof (List.filter_length_le f l) as Hle.
  destruct (f x) eqn:E; simpl.
  - split.
    + intros H. constructor; [done|]. apply IH. lia.
    + intros H. inversion H; subst. f_equal. by apply IH.
  - split; [lia|]. intros H. inversion H; congruence.
Qed.

Lemma score_of_nonneg (query txt : string) :
  (0 <= score_of (split_ws (toLowerCase query)) txt)%Q.
Proof.
  unfold score_of.
  apply (ratio_facts (length (List.filter _ (split_ws (toLowerCase query))))
                     (length (split_ws (toLowerCase query)))).
  - apply List.filter_length_le.
  - apply split_ws_length.
Qed.

(** X20.  The score of a text for a query lies between 0 and 1; it is 0
    exactly when no query term hits the text, and 1 exactly when every
    query term does. *)
Theorem score_of_range (query txt : string) :
  let terms := split_ws (toLowerCase query) in
  let textTerms := split_ws (toLowerCase txt) in
  (0 <= score_of terms txt)%Q /\ (score_of terms txt <= 1)%Q
  /\ ((score_of terms txt == 0)%Q
      <-> List.Forall (fun term => term_hits textTerms term = false) terms)
  /\ ((score_of terms txt == 1)%Q
      <-> List.Forall (fun term => term_hits textTerms term = true) terms).
Proof.
  intros terms textTerms. unfold score_of. fold textTerms.
  destruct (ratio_facts (length (List.filter (term_hits textTerms) terms))
              (length terms)) as (H0 & H1 & Hz & Ha).
  { apply List.filter_length_le. }
  { apply split_ws_length. }
  split; [done|]. split; [done|]. split.
  - by rewrite Hz, filter_length_zero.
  - by rewrite Ha, filter_length_all.
Qed.

(** X21.  The search does not see the letter case of the query: a query
    and its lowercase form, and any two queries with the same lowercase
    form, get the same result. *)
Theorem searchWithFallback_case_insensitive :
  (forall query, searchWithFallback (toLowerCase query) = searchWithFallback query)
  /\ (forall query query',
        toLowerCase query = toLowerCase query' ->
        searchWithFallback query = searchWithFallback query').
Proof.
  split.
  - intros query. unfold searchWithFallback, searchWithFallback_on, scores_on.
    by rewrite toLowerCase_idem.
  - intros query query' H.
    unfold searchWithFallback, searchWithFallback_on, scores_on. by rewrite H.
Qed.

Lemma searchWithFallback_case_insensitive_witness :
  searchWithFallback "MEDICATION List" = searchWithFallback "medication LIST".
Proof.
  apply (proj2 searchWithFallback_case_insensitive). reflexivity.
Defined.

Lemma insert_stable_Permutation {A} (cmp : A -> A -> Q) (x : A) (l : list A) :
  Permutation (insert_stable cmp x l) (x :: l).
Proof.
  induction l as [|y r IH]; simpl; [done|].
  destruct (Qlt_b 0 (cmp x y)); [|done].
  rewrite IH. apply perm_swap.
Qed.

Lemma sort_Permutation {A} (cmp : A -> A -> Q) (l : list A) :
  Permutation (sort cmp l) l.
Proof.
  induction l as [|x l IH]; simpl; [done|].
  rewrite insert_stable_Permutation. by constructor.
Qed.

Lemma NoDup_map_filter {A B} (g : A -> B) (f : A -> bool) (l : list A) :
  List.NoDup (List.map g l) -> List.NoDup (List.map g (List.filter f l)).
Proof.
  induction l as [|x l IH]; simpl; [done|]. intros H.
  apply List.NoDup_cons_iff in H as [Hx Hl].
  destruct (f x); simpl; [|by apply IH].
  apply List.NoDup_cons_iff. split; [|by apply IH].
  intros Hin. apply Hx. apply in_map_iff in Hin as (y & Hy & Hin).
  apply in_map_iff. exists y. split; [done|]. by apply filter_In in Hin as [? _].
Qed.

Lemma NoDup_prefix {A} (n : nat) (l : list A) :
  List.NoDup l -> List.NoDup (firstn n l).
Proof.
  revert n. induction l as [|x l IH]; intros [|n] H; simpl; try constructor.
  - apply List.NoDup_cons_iff in H as [Hx _]. intros Hin. apply Hx.
    by apply In_firstn in Hin.
  - apply IH. by apply List.NoDup_cons_iff in H as [_ ?].
Qed.

Lemma corpus_NoDup : List.NoDup FALLBACK_CORPUS.
Proof.
  unfold FALLBACK_CORPUS.
  repeat (apply List.NoDup_cons; [simpl; intuition discriminate|]).
  constructor.
Qed.

Lemma scores_texts (corpus : list string) (query : string) :
  List.map text (scores_on corpus query) = corpus.
Proof.
  unfold scores_on. rewrite map_map. simpl. apply map_id.
Qed.

(** X22.  The result holds chunks of the corpus, none of them twice, and
    as many as there are chunks with a positive score, up to three. *)
Theorem searchWithFallback_distinct_chunks (query : string) :
  let found := searchWithFallback query in
  List.Forall (fun m => In (text m) FALLBACK_CORPUS) found
  /\ List.NoDup (List.map text found)
  /\ length found
     = Nat.min 3 (length (List.filter (fun m => Qlt_b 0 (score m)) (scores query))).
Proof.
  intros found. split; [|split].
  - rewrite List.Forall_forall. intros m Hm.
    by apply searchWithFallback_texts with query.
  - subst found. unfold searchWithFallback, searchWithFallback_on, top3.
    rewrite <- firstn_map. apply NoDup_prefix.
    eapply Permutation_NoDup.
    { apply Permutation_map. symmetry. apply sort_Permutation. }
    apply NoDup_map_filter. rewrite scores_texts. apply corpus_NoDup.
  - subst found. unfold searchWithFallback, searchWithFallback_on, top3.
    rewrite length_firstn, sort_length. reflexivity.
Qed.

Lemma insert_stable_descending (x : SearchMatch) (l : list SearchMatch) :
  StronglySorted (fun a b => (score b <= score a)%Q) l ->
  StronglySorted (fun a b => (score b <= score a)%Q)
                 (insert_stable by_score_desc x l).
Proof.
  induction 1 as [|y r Hs IH Hy]; simpl; [repeat constructor|].
  destruct (Qlt_b 0 (by_score_desc x y)) eqn:E.
  - apply by_score_desc_pos in E. constructor; [done|].
    rewrite List.Forall_forall in *. intros z Hz.
    apply In_insert_stable in Hz as [-> | Hz]; [by apply Qlt_le_weak | by apply Hy].
  - assert (Hle : (score y <= score x)%Q).
    { apply Qnot_lt_le. intros Hlt. apply by_score_desc_pos in Hlt. congruence. }
    constructor; [by constructor|]. constructor; [done|].
    rewrite List.Forall_forall in *. intros z Hz.
    eapply Qle_trans; [by apply Hy | done].
Qed.

Lemma sort_descending (l : list SearchMatch) :
  StronglySorted (fun a b => (score b <= score a)%Q) (sort by_score_desc l).
Proof.
  induction l as [|x l IH]; simpl; [constructor|].
  by apply insert_stable_descending.
Qed.

(** X23.  The best match comes first: no chunk of the corpus scores higher
    than the first match of the result; and the result is empty exactly
    when every chunk scores 0. *)
Theorem searchWithFallback_best_first (query : string) :
  let found := searchWithFallback query in
  (found = [] <-> List.Forall (fun m => (score m == 0)%Q) (scores query))
  /\ forall top, hd_error found = Some top ->
                 List.Forall (fun m => (score m <= score top)%Q) (scores query).
Proof.
  intros found.
  set (positive := List.filter (fun m => Qlt_b 0 (score m)) (scores query)).
  assert (Hfound : found = firstn 3 (sort by_score_desc positive)) by reflexivity.
  assert (Hnonneg : forall m, In m (scores query) -> (0 <= score m)%Q).
  { intros m Hm. unfold scores, scores_on in Hm.
    apply in_map_iff in Hm as (txt & <- & _). apply score_of_nonneg. }
  split.
  - split.
    + intros Hnil. rewrite List.Forall_forall. intros m Hm.
      assert (Hpos : positive = []).
      { apply length_zero_iff_nil. rewrite <- (sort_length by_score_desc).
        rewrite Hfound in Hnil.
        destruct (sort by_score_desc positive); [done | discriminate]. }
      apply Qle_antisym; [|by apply Hnonneg].
      apply Qnot_lt_le. intros Hlt.
      assert (Hin : In m positive).
      { apply filter_In. split; [done|]. by apply Qlt_b_spec. }
      by rewrite Hpos in Hin.
    + intros Hall. rewrite Hfound.
      assert (Hpos : positive = []).
      { destruct positive as [|m l] eqn:E; [done|]. exfalso.
        assert (Hin : In m positive) by (rewrite E; by left).
        apply filter_In in Hin as [Hin Hlt]. apply Qlt_b_spec in Hlt.
        rewrite List.Forall_forall in Hall. rewrite (Hall m Hin) in Hlt.
        by apply Qlt_irrefl in Hlt. }
      by rewrite Hpos.
  - intros top Htop. rewrite Hfound in Htop.
    pose proof (sort_descending positive) as Hsorted.
    destruct (sort by_score_desc positive) as [|first others] eqn:Es; [done|].
    simpl in Htop. injection Htop as <-.
    assert (Hfirst : In first positive).
    { apply (In_sort by_score_desc). rewrite Es. by left. }
    apply filter_In in Hfirst as [_ Hfirst]. apply Qlt_b_spec in Hfirst.
    inversion Hsorted as [|? ? _ Hothers]; subst.
    rewrite List.Forall_forall in *. intros m Hm.
    destruct (Qlt_le_dec 0 (score m)) as [Hlt|Hle].
    + assert (Hin : In m (first :: others)).
      { rewrite <- Es. apply In_sort, filter_In. split; [done|].
        by apply Qlt_b_spec. }
      destruct Hin as [<- | Hin]; [apply Qle_refl | by apply Hothers].
    + eapply Qle_trans; [exact Hle | by apply Qlt_le_weak].
Qed.

Lemma searchWithFallback_best_first_witness :
  let top := mkMatch "Keep an up-to-date medication list; reconcile after every clinic or hospital visit."
                     (2 # 2) in
  List.Forall (fun m => (score m <= score top)%Q) (scores "medication list").
Proof.
  intros top.
  apply (proj2 (searchWithFallback_best_first "medication list") top).
  reflexivity.
Defined.

End FallbackExtras.

(** ** Sequences of history calls, and white space around inputs *)

Section MoreExtras.
Import Faq Io Service RateLimit QueryHistory Handlers Routes Scenario.

(** X7.  From a store of at most ten items, any sequence of [addQuery]
    calls leaves the ten latest items of the calls and of the old store,
    most recent first, and never more than ten; after the [DELETE] of the
    history route only the calls made since are there. *)
Theorem history_keeps_ten_latest (cs : list AddCall) (h : QueryHistoryStore) :
  (length h <= 10)%nat ->
  getRecentQueries (addAll cs h) = firstn 10 (rev (List.map item_of cs) ++ h)
  /\ (length (getRecentQueries (addAll cs h)) <= 10)%nat
  /\ getRecentQueries (addAll cs (history_DELETE h).2)
     = firstn 10 (rev (List.map item_of cs))
  /\ history_body (history_GET (history_DELETE h).2).1 = JHistory [].
Proof.
  intros Hlen. unfold getRecentQueries.
  assert (H : forall h0 : QueryHistoryStore,
             (length h0 <= 10)%nat ->
             addAll cs h0 = firstn 10 (rev (List.map item_of cs) ++ h0)).
  { intros h0 Hh0. destruct cs as [|c cs'].
    - simpl. symmetry. by apply firstn_all2.
    - by apply addAll_firstn. }
  split; [by apply H|]. split.
  - rewrite H by done. rewrite length_firstn. lia.
  - split; [|done]. unfold history_DELETE, clearHistory. cbn [snd].
    rewrite H by (simpl; lia). by rewrite app_nil_r.
Qed.

Lemma history_keeps_ten_latest_witness :
  let c (n : Z) := mkAdd n n "a" "b" false "No known interaction found" in
  getRecentQueries (addAll [c 1; c 2] [item_of (c 0)])
  = [item_of (c 2); item_of (c 1); item_of (c 0)].
Proof.
  intros c.
  destruct (history_keeps_ten_latest [c 1; c 2] [item_of (c 0)]) as [H _].
  - simpl. lia.
  - rewrite H. reflexivity.
Defined.

(** X24.  The FAQ handler works on the trimmed query: white space around
    [q] changes neither the response, nor the limiter, nor the calls to the
    services. *)
Theorem GET_ignores_surrounding_space (env : Env) (w : World) (now : Z)
        (headers : Headers) (query : string) (rl : RateLimiter) :
  GET env w now (mkFaqRequest headers (Some query)) rl
  = GET env w now (mkFaqRequest headers (Some (trim query))) rl.
Proof.
  unfold GET. cbn [faq_headers q].
  destruct (isAllowed now (clientIp headers) rl) as [[] rl1]; simpl negb;
    cbv iota; [|done].
  rewrite trim_idem.
  destruct (trim query) as [|c r] eqn:Et.
  - change (jslength EmptyString =? 0) with true. by rewrite orb_true_r.
  - destruct query as [|c0 r0]; [discriminate Et|]. reflexivity.
Qed.

(** X25.  The length limits of the schema are checked before trimming: a
    field that parses also parses, to the same name, when it is trimmed
    first; the converse fails for a short name padded beyond 100
    characters. *)
Theorem parse_medication_trim_first (s a : string) :
  (parse_medication (Some s) = Some a -> parse_medication (Some (trim s)) = Some a)
  /\ parse_medication (Some (String "a" (blanks 100))) = None
  /\ parse_medication (Some (trim (String "a" (blanks 100)))) = Some "a".
Proof.
  split; [|split; reflexivity].
  intros H.
  destruct (parse_medication_Some _ _ H)
    as (s0 & [= <-] & -> & _ & Hne & [Hlo Hhi] & _).
  unfold parse_medication in *. rewrite trim_idem.
  destruct (_ && MEDICATION_NAME (trim s)) eqn:E; [|done].
  apply andb_true_iff in E as [_ E]. rewrite E.
  destruct (Z.leb_spec 1 (jslength (trim s))); [|lia].
  destruct (Z.leb_spec (jslength (trim s)) 100); [|lia]. reflexivity.
Qed.

Lemma parse_medication_trim_first_witness :
  parse_medication (Some (trim " ibuprofen ")) = Some "ibuprofen".
Proof.
  apply (proj1 (parse_medication_trim_first " ibuprofen " "ibuprofen")).
  reflexivity.
Defined.

End MoreExtras.
